(** * testdb: a diagnostic HTTP service over PostgreSQL and Redis

    Shallow embedding of [main.py].  The handlers are written in a small
    state-and-exception monad over a [world] that holds the two backing
    services, a clock and the log of every client call the handlers make.
    The backing services themselves are not part of the repository: the
    development fixes an executable model of the statements and commands
    this service sends to them, with a schedule of injected faults so that
    any call that reaches a server may fail. *)

From Stdlib Require Import ZArith Lia Ascii String.
From stdpp Require Import gmap strings list sorting pretty.

Set Warnings "-register-all".
Local Open Scope string_scope.
Local Open Scope list_scope.

(** ** Python values *)

(** Scalars that travel between the drivers and the handlers. *)
Inductive scalar :=
| PNone
| PBool (b : bool)
| PInt (z : Z)
| PStr (s : string)
| PDatetime (t : Z).

(** What a handler returns: dicts, lists and scalars, as FastAPI receives
    them before JSON encoding.  A dict keeps its insertion order. *)
Inductive obj :=
| Val (v : scalar)
| List (items : list obj)
| Dict (fields : list (string * obj)).

(** [d[k]] on a dict (Python raises KeyError when absent). *)
Fixpoint assoc_get {A} (k : string) (d : list (string * A)) : option A :=
  match d with
  | [] => None
  | (k', v) :: d' => if String.eqb k k' then Some v else assoc_get k d'
  end.

(** [d[k] = v]: replaces in place when the key is present, appends otherwise. *)
Fixpoint assoc_set {A} (k : string) (v : A) (d : list (string * A)) : list (string * A) :=
  match d with
  | [] => [(k, v)]
  | (k', v') :: d' =>
      if String.eqb k k' then (k, v) :: d' else (k', v') :: assoc_set k v d'
  end.

Definition field (k : string) (o : obj) : option obj :=
  match o with
  | Dict d => assoc_get k d
  | _ => None
  end.

Definition dict_set (k : string) (v : obj) (o : obj) : obj :=
  match o with
  | Dict d => Dict (assoc_set k v d)
  | _ => o
  end.

(** ** Exceptions *)

Inductive fault_class :=
| OperationalError      (* sqlalchemy.exc.OperationalError *)
| ProgrammingError      (* sqlalchemy.exc.ProgrammingError and the driver's own *)
| IntegrityError
| DataError             (* a value out of range, a sequence at its end *)
| PoolTimeout           (* sqlalchemy.exc.TimeoutError *)
| RedisError
| ValueError.

(** An exception raised by a client library; [fault_msg] is [str(e)]. *)
Record fault := Fault { fault_cls : fault_class; fault_msg : string }.

(** What Python code can raise here: an exception of a client library, an
    exception of the interpreter itself (subscripting [None], an index out
    of range), or FastAPI's [HTTPException]. *)
Inductive exn :=
| Backend (f : fault)
| PyError (name msg : string)
| HTTPException (status_code : Z) (detail : string).

(** [str(e)] *)
Definition str_exn (e : exn) : string :=
  match e with
  | Backend f => fault_msg f
  | PyError _ msg => msg
  | HTTPException _ detail => detail
  end.

(** [isinstance(e, OperationalError)] *)
Definition is_OperationalError (e : exn) : bool :=
  match e with
  | Backend (Fault OperationalError _) => true
  | _ => false
  end.

(** [isinstance(e, Exception)] *)
Definition is_Exception (e : exn) : bool := true.

(** ** The backing services *)

(** What the environment does to the next calls that reach a server:
    [Some f] makes the call raise [f], [None] lets it through.  When
    [upcoming] is used up every later call gets [thereafter], so
    [{| upcoming := []; thereafter := Some f |}] is a server that is down. *)
Record schedule := Schedule {
  upcoming : list (option fault);
  thereafter : option fault
}.

Definition pop (s : schedule) : option fault * schedule :=
  match upcoming s with
  | x :: rest => (x, Schedule rest (thereafter s))
  | [] => (thereafter s, s)
  end.

(** No fault is injected, now or later. *)
Definition quiet (s : schedule) : Prop :=
  Forall (λ x, x = None) (upcoming s) ∧ thereafter s = None.

(** The schedule once one call has gone through. *)
Definition rest (s : schedule) : schedule := Schedule (tail (upcoming s)) (thereafter s).

Definition healthy : schedule := Schedule [] None.
Definition down (f : fault) : schedule := Schedule [] (Some f).

(** A row of [test_connection]. *)
Record row := Row {
  row_id : Z;
  row_message : string;
  row_created_at : Z
}.

(** The PostgreSQL server and the engine's pool.  [pg_catalog] has the
    databases of the cluster, each with whether the server refuses to drop
    it: a template database, the database the service is connected to, a
    database on which other sessions are open.  [pg_table] is the committed
    content of [test_connection] ([None]: no such table), [pg_work] what
    the transaction of the connection in use sees, and [pg_seq] the next
    value of the SERIAL sequence, which no rollback takes back.
    [pg_other_tables] are the other tables of the schema in the order in
    which the catalog lists them, and [pg_rank] is how many of them it
    lists before [test_connection].  [pg_in_use] counts the connections the
    handlers have taken from the pool and not yet given back; what becomes
    of a connection object that a handler drops without closing it, once
    the interpreter collects it, is not part of a handler's run. *)
Record pg_server := PgServer {
  pg_version : string;
  pg_catalog : gmap string bool;
  pg_table : option (list row);
  pg_work : option (list row);
  pg_seq : Z;
  pg_other_tables : list string;
  pg_rank : nat;
  pg_in_use : nat
}.

(** The names in [pg_database]. *)
Definition pg_databases (p : pg_server) : gset string := dom (pg_catalog p).

(** The Redis server: value and absolute expiry time in milliseconds (when
    any) per key. *)
Record redis_server := RedisServer {
  redis_store : gmap string (string * option Z);
  redis_info : list (string * string)
}.

(** Calls on the client libraries, as the handlers make them. *)
Inductive call :=
| EngineConnect
| ConnExecute (sql : string) (params : list (string * string))
| ConnCommit
| ConnClose
| RawConnection
| SetIsolationLevel (level : Z)
| CursorOpen
| CursorExecute (sql : string) (params : list string)
| CursorClose
| RawClose
| GetTableNames
| RedisPing
| RedisInfo (section : string)
| RedisSet (key value : string) (ex : Z)
| RedisGet (key : string)
| RedisTtl (key : string).

Record event := Event { ev_call : call; ev_fault : option fault }.

(** Everything outside the handlers: the two servers, the clock (in
    milliseconds, the unit in which Redis keeps expiry times), the log of
    client calls made so far, and what the environment will do to the calls
    still to come.  The clock moves between requests; the calls of one
    request see one instant. *)
Record world := World {
  pg : pg_server;
  redis : redis_server;
  now : Z;
  trace : list event;
  pg_faults : schedule;
  redis_faults : schedule
}.

(** Time passing between two requests, in milliseconds. *)
Definition elapse (dt : Z) (w : world) : world :=
  World (pg w) (redis w) (now w + dt) (trace w) (pg_faults w) (redis_faults w).

(** ** The monad of handler code *)

Definition M (A : Type) : Type := world → (exn + A) * world.

#[export] Instance M_ret : MRet M := λ A a w, (inr a, w).
#[export] Instance M_bind : MBind M := λ A B k m w,
  match m w with
  | (inl e, w') => (inl e, w')
  | (inr a, w') => k a w'
  end.

Definition raise {A} (e : exn) : M A := λ w, (inl e, w).

(** [try: body / except C as e: handler(e)] *)
Definition try_except {A} (body : M A) (C : exn → bool) (handler : exn → M A) : M A :=
  λ w, match body w with
       | (inl e, w') => if C e then handler e w' else (inl e, w')
       | (inr a, w') => (inr a, w')
       end.

(** A call that reaches the PostgreSQL server: the schedule decides first,
    then the server's own semantics [run]. *)
Definition pg_call {A} (c : call) (run : Z → pg_server → (fault + A) * pg_server) : M A :=
  λ w, let '(inj, s) := pop (pg_faults w) in
       match inj with
       | Some f =>
           (inl (Backend f),
            World (pg w) (redis w) (now w) (trace w ++ [Event c (Some f)]) s (redis_faults w))
       | None =>
           match run (now w) (pg w) with
           | (inl f, p') =>
               (inl (Backend f),
                World p' (redis w) (now w) (trace w ++ [Event c (Some f)]) s (redis_faults w))
           | (inr a, p') =>
               (inr a, World p' (redis w) (now w) (trace w ++ [Event c None]) s (redis_faults w))
           end
       end.

(** A call on a client object that does not reach the server. *)
Definition pg_local (c : call) (upd : pg_server → pg_server) : M unit :=
  λ w, (inr tt,
        World (upd (pg w)) (redis w) (now w) (trace w ++ [Event c None])
              (pg_faults w) (redis_faults w)).

Definition redis_call {A} (c : call) (run : Z → redis_server → (fault + A) * redis_server) : M A :=
  λ w, let '(inj, s) := pop (redis_faults w) in
       match inj with
       | Some f =>
           (inl (Backend f),
            World (pg w) (redis w) (now w) (trace w ++ [Event c (Some f)]) (pg_faults w) s)
       | None =>
           match run (now w) (redis w) with
           | (inl f, r') =>
               (inl (Backend f),
                World (pg w) r' (now w) (trace w ++ [Event c (Some f)]) (pg_faults w) s)
           | (inr a, r') =>
               (inr a, World (pg w) r' (now w) (trace w ++ [Event c None]) (pg_faults w) s)
           end
       end.

(** [time.time()], as the count of milliseconds that the clock shows. *)
Definition time_time : M Z := λ w, (inr (now w), w).

(** ** Statements and their meaning on the server *)

Definition dquote : ascii := "034"%char.
Definition nul : ascii := "000"%char.

Fixpoint has_char (c : ascii) (s : string) : bool :=
  match s with
  | EmptyString => false
  | String x s' => if Ascii.eqb x c then true else has_char c s'
  end.

Fixpoint strip_prefix (p s : string) : option string :=
  match p with
  | EmptyString => Some s
  | String a p' =>
      match s with
      | EmptyString => None
      | String b s' => if Ascii.eqb a b then strip_prefix p' s' else None
      end
  end.

(** PostgreSQL's reading of a quoted identifier, from just after the
    opening quote: the identifier and the text that follows the closing
    quote.  A doubled quote stands for one quote; the character with code
    zero cannot occur. *)
Fixpoint quoted_ident (s : string) : option (string * string) :=
  match s with
  | EmptyString => None
  | String c s' =>
      if Ascii.eqb c dquote then
        match s' with
        | String c' s'' =>
            if Ascii.eqb c' dquote
            then '(i, rest) ← quoted_ident s''; Some (String dquote i, rest)
            else Some (EmptyString, s')
        | EmptyString => Some (EmptyString, EmptyString)
        end
      else if Ascii.eqb c nul then None
      else '(i, rest) ← quoted_ident s'; Some (String c i, rest)
  end.

(** What the server makes of the text that follows [CREATE DATABASE ] or
    [DROP DATABASE IF EXISTS ]: the one database it names, a syntax error,
    or a statement that this model does not read (clauses after the name,
    an unquoted name, several statements, ...). *)
Inductive reading :=
| Names (n : string)
| Malformed
| Beyond.

Fixpoint all_chars (ok : ascii → bool) (s : string) : bool :=
  match s with
  | EmptyString => true
  | String c s' => ok c && all_chars ok s'
  end.

Fixpoint count_char (c : ascii) (s : string) : nat :=
  match s with
  | EmptyString => 0
  | String x s' => (if Ascii.eqb x c then 1 else 0) + count_char c s'
  end.

Fixpoint skip_spaces (s : string) : string :=
  match s with
  | String c s' => if Ascii.eqb c " "%char then skip_spaces s' else s
  | EmptyString => EmptyString
  end.

Definition between (lo hi c : ascii) : bool := Ascii.leb lo c && Ascii.leb c hi.

(** Letters, digits and the underscore: what keywords, unquoted names and
    numbers are made of. *)
Definition word_char (c : ascii) : bool :=
  between "a" "z" c || between "A" "Z" c || between "0" "9" c || Ascii.eqb c "_"%char.

(** A comment: two dashes and what follows up to the end of the line, here
    the end of the statement. *)
Definition line_comment (s : string) : bool :=
  match s with
  | String "-" (String "-" s') =>
      all_chars (λ c, negb (Ascii.eqb c "010"%char || Ascii.eqb c "013"%char
                            || Ascii.eqb c nul)) s'
  | _ => false
  end.

(** The text after the closing quote of the name.  Nothing but spaces, or
    spaces and a comment, leaves the statement as it is.  A text of words,
    spaces and double quotes with an odd number of quotes ends inside a
    quoted identifier, which is a syntax error.  Any other text is for the
    server to judge. *)
Definition after_name (n tail : string) : reading :=
  let t := skip_spaces tail in
  if String.eqb t "" || line_comment t then Names n
  else if all_chars (λ c, word_char c || Ascii.eqb c " "%char || Ascii.eqb c dquote) tail
          && Nat.odd (count_char dquote tail)
  then Malformed
  else Beyond.

(** A quoted identifier that does not end, holds the character with code
    zero (where the driver's C string ends), or is empty, is a syntax
    error, and so is a statement with no name at all. *)
Definition database_operand (s : string) : reading :=
  match s with
  | String c s' =>
      if Ascii.eqb c dquote then
        match quoted_ident s' with
        | Some (String a i, tail) => after_name (String a i) tail
        | _ => Malformed
        end
      else Beyond
  | EmptyString => Malformed
  end.

Definition sql_version : string := "SELECT version()".
Definition sql_create_table : string := "
                CREATE TABLE IF NOT EXISTS test_connection (
                    id SERIAL PRIMARY KEY,
                    message TEXT NOT NULL,
                    created_at TIMESTAMP DEFAULT NOW()
                )
            ".
Definition sql_insert_returning : string :=
  "INSERT INTO test_connection (message) VALUES (:msg) RETURNING id, message, created_at".
Definition sql_insert : string :=
  "INSERT INTO test_connection (message) VALUES (:msg)".
Definition sql_read : string :=
  "SELECT id, message, created_at FROM test_connection ORDER BY id DESC LIMIT 10".
Definition sql_count : string := "SELECT count(*) FROM test_connection".
Definition sql_db_exists : string := "SELECT 1 FROM pg_database WHERE datname = %s".

(** f'CREATE DATABASE "{db_name}"' *)
Definition sql_create_database (db_name : string) : string :=
  "CREATE DATABASE " +:+ String dquote (db_name +:+ String dquote EmptyString).
(** f'DROP DATABASE IF EXISTS "{db_name}"' *)
Definition sql_drop_database (db_name : string) : string :=
  "DROP DATABASE IF EXISTS " +:+ String dquote (db_name +:+ String dquote EmptyString).

Definition set_work (t : option (list row)) (p : pg_server) : pg_server :=
  PgServer (pg_version p) (pg_catalog p) (pg_table p) t (pg_seq p)
           (pg_other_tables p) (pg_rank p) (pg_in_use p).
Definition set_seq (n : Z) (p : pg_server) : pg_server :=
  PgServer (pg_version p) (pg_catalog p) (pg_table p) (pg_work p) n
           (pg_other_tables p) (pg_rank p) (pg_in_use p).
Definition set_catalog (c : gmap string bool) (p : pg_server) : pg_server :=
  PgServer (pg_version p) c (pg_table p) (pg_work p) (pg_seq p)
           (pg_other_tables p) (pg_rank p) (pg_in_use p).
Definition set_in_use (n : nat) (p : pg_server) : pg_server :=
  PgServer (pg_version p) (pg_catalog p) (pg_table p) (pg_work p) (pg_seq p)
           (pg_other_tables p) (pg_rank p) n.
(** COMMIT: what the transaction sees becomes the committed table. *)
Definition commit_work (p : pg_server) : pg_server :=
  PgServer (pg_version p) (pg_catalog p) (pg_work p) (pg_work p) (pg_seq p)
           (pg_other_tables p) (pg_rank p) (pg_in_use p).
(** ROLLBACK, and the start of a transaction: back to the committed table. *)
Definition rollback_work (p : pg_server) : pg_server := set_work (pg_table p) p.

Definition undefined_table : fault :=
  Fault ProgrammingError "relation test_connection does not exist".
Definition syntax_error : fault := Fault ProgrammingError "syntax error".
Definition nul_in_literal : fault :=
  Fault ValueError "A string literal cannot contain NUL (0x00) characters.".
Definition sequence_exhausted : fault :=
  Fault DataError "nextval: reached maximum value of sequence".
Definition cannot_drop : fault := Fault OperationalError "cannot drop database".

(** The largest value of the four-byte integer that a SERIAL column and
    its sequence hold. *)
Definition int4_max : Z := 2147483647.

(** ORDER BY id DESC *)
Fixpoint insert_desc (r : row) (l : list row) : list row :=
  match l with
  | [] => [r]
  | x :: l' => if (row_id x <=? row_id r)%Z then r :: l else x :: insert_desc r l'
  end.
Definition order_by_id_desc (l : list row) : list row := foldr insert_desc [] l.

Definition columns (r : row) : list scalar :=
  [PInt (row_id r); PStr (row_message r); PDatetime (row_created_at r)].

(** INSERT INTO test_connection (message) VALUES (m): the id is the
    sequence's next value, created_at the server's clock.  A sequence that
    has given out its last value gives no more. *)
Definition insert_row (t : Z) (m : string) (p : pg_server) : (fault + row) * pg_server :=
  if has_char nul m then (inl nul_in_literal, p)
  else match pg_work p with
       | None => (inl undefined_table, p)
       | Some rows =>
           if (int4_max <? pg_seq p)%Z then (inl sequence_exhausted, p)
           else
             let r := Row (pg_seq p) m t in
             let p' := set_seq (pg_seq p + 1) p in
             if existsb (λ x, (row_id x =? pg_seq p)%Z) rows
             then (inl (Fault IntegrityError "duplicate key value violates unique constraint"), p')
             else (inr r, set_work (Some (rows ++ [r])) p')
       end.

(** CREATE TABLE IF NOT EXISTS test_connection (...) *)
Definition create_table_if_not_exists (p : pg_server) : pg_server :=
  match pg_work p with
  | Some _ => p
  | None => set_work (Some []) (set_seq 1 p)
  end.

Definition result := list (list scalar).

(** [conn.execute(text(sql), params)] on the server. *)
Definition run_text (sql : string) (params : list (string * string))
    (t : Z) (p : pg_server) : (fault + result) * pg_server :=
  if String.eqb sql sql_version then (inr [[PStr (pg_version p)]], p)
  else if String.eqb sql sql_create_table then (inr [], create_table_if_not_exists p)
  else if String.eqb sql sql_insert_returning then
    match assoc_get "msg" params with
    | None => (inl (Fault ProgrammingError "A value is required for bind parameter msg"), p)
    | Some m =>
        match insert_row t m p with
        | (inl f, p') => (inl f, p')
        | (inr r, p') => (inr [columns r], p')
        end
    end
  else if String.eqb sql sql_insert then
    match assoc_get "msg" params with
    | None => (inl (Fault ProgrammingError "A value is required for bind parameter msg"), p)
    | Some m =>
        match insert_row t m p with
        | (inl f, p') => (inl f, p')
        | (inr r, p') => (inr [], p')
        end
    end
  else if String.eqb sql sql_read then
    match pg_work p with
    | None => (inl undefined_table, p)
    | Some rows => (inr (columns <$> take 10 (order_by_id_desc rows)), p)
    end
  else if String.eqb sql sql_count then
    match pg_work p with
    | None => (inl undefined_table, p)
    | Some rows => (inr [[PInt (Z.of_nat (length rows))]], p)
    end
  else (inl syntax_error, p).

Section Service.

(** Three functions of the surrounding software that the handlers only
    pass values through: PostgreSQL's coercion of a text to its [name]
    type (it clips to the identifier length), Python's [str] of a
    [datetime], and the f-string rendering of the float [time.time()].
    The fourth is the server's execution, on a connection in autocommit
    mode or not, of a CREATE DATABASE or DROP DATABASE statement that
    [database_operand] does not read: whether it fails, and the catalog it
    leaves.  (Such a statement cannot touch a table: the server refuses
    both commands inside a transaction block, and a text of several
    statements is one.) *)
Variable namein : string → string.
Variable str_datetime : Z → string.
Variable str_float : Z → string.
Variable other_statement : bool → string → gmap string bool → option fault * gmap string bool.

Definition in_transaction_block : fault :=
  Fault ProgrammingError "cannot run inside a transaction block".

(** A statement left to [other_statement]. *)
Definition elsewhere (autocommit : bool) (sql : string) (p : pg_server)
    : (fault + result) * pg_server :=
  let '(f, c) := other_statement autocommit sql (pg_catalog p) in
  (match f with Some f => inl f | None => inr [] end, set_catalog c p).

(** [cursor.execute(sql, params)] on the server, for a connection that is
    in autocommit mode or not.  A database that has just been created is no
    template and has no session on it.  DROP DATABASE IF EXISTS of a name
    that is not in the catalog does nothing. *)
Definition run_cursor (autocommit : bool) (sql : string) (params : list string)
    (t : Z) (p : pg_server) : (fault + result) * pg_server :=
  if String.eqb sql sql_db_exists then
    match params with
    | [n] =>
        if has_char nul n then (inl nul_in_literal, p)
        else (inr (if bool_decide (namein n ∈ pg_databases p) then [[PInt 1%Z]] else []), p)
    | _ => (inl (Fault ProgrammingError "not all arguments converted"), p)
    end
  else
    match strip_prefix "CREATE DATABASE " sql with
    | Some operand =>
        match database_operand operand with
        | Malformed => (inl syntax_error, p)
        | Beyond => elsewhere autocommit sql p
        | Names n =>
            if negb autocommit then (inl in_transaction_block, p)
            else if bool_decide (namein n ∈ pg_databases p)
            then (inl (Fault ProgrammingError "database already exists"), p)
            else (inr [], set_catalog (<[namein n := false]> (pg_catalog p)) p)
        end
    | None =>
        match strip_prefix "DROP DATABASE IF EXISTS " sql with
        | Some operand =>
            match database_operand operand with
            | Malformed => (inl syntax_error, p)
            | Beyond => elsewhere autocommit sql p
            | Names n =>
                if negb autocommit then (inl in_transaction_block, p)
                else match pg_catalog p !! namein n with
                     | None => (inr [], p)
                     | Some true => (inl cannot_drop, p)
                     | Some false => (inr [], set_catalog (delete (namein n) (pg_catalog p)) p)
                     end
            end
        | None => (inl syntax_error, p)
        end
    end.

(** *** SQLAlchemy connections *)

Inductive connection := Connection.

(** [engine.connect()]: a pooled connection, its transaction starting from
    the committed state. *)
Definition engine_connect : M connection :=
  pg_call EngineConnect
    (λ _ p, (inr Connection, set_in_use (S (pg_in_use p)) (rollback_work p))).

Definition conn_execute (conn : connection) (sql : string)
    (params : list (string * string)) : M result :=
  pg_call (ConnExecute sql params) (run_text sql params).

Definition conn_commit (conn : connection) : M unit :=
  pg_call ConnCommit (λ _ p, (inr tt, commit_work p)).

(** Leaving the [with] block: roll back what is not committed and give the
    connection back to the pool. *)
Definition conn_close (conn : connection) : M unit :=
  pg_local ConnClose (λ p, set_in_use (pred (pg_in_use p)) (rollback_work p)).

(** [with engine.connect() as conn: body] *)
Definition with_connect {A} (body : connection → M A) : M A :=
  λ w, match engine_connect w with
       | (inl e, w') => (inl e, w')
       | (inr conn, w') =>
           let '(r, w'') := body conn w' in (r, (conn_close conn w'').2)
       end.

(** [result.scalar()] *)
Definition scalar_of (r : result) : scalar :=
  match r with
  | (v :: _) :: _ => v
  | _ => PNone
  end.

(** [result.fetchone()] *)
Definition fetchone (r : result) : option (list scalar) := head r.

(** [result.fetchall()] *)
Definition fetchall (r : result) : list (list scalar) := r.

(** [row[i]] where [row] may be [None]. *)
Definition subscript (r : option (list scalar)) (i : nat) : M scalar :=
  match r with
  | None => raise (PyError "TypeError" "'NoneType' object is not subscriptable")
  | Some cols =>
      match cols !! i with
      | Some v => mret v
      | None => raise (PyError "IndexError" "tuple index out of range")
      end
  end.

(** [str(v)] *)
Definition str_scalar (v : scalar) : string :=
  match v with
  | PNone => "None"
  | PBool true => "True"
  | PBool false => "False"
  | PInt z => pretty z
  | PStr s => s
  | PDatetime t => str_datetime t
  end.

(** *** psycopg2 connections *)

Record raw_connection := RawConn { isolation_level : option Z }.
Record cursor := Cursor { cur_conn : raw_connection; cur_result : result }.

Definition autocommit (c : raw_connection) : bool :=
  match isolation_level c with
  | Some 0%Z => true
  | _ => false
  end.

(** [engine.raw_connection()] *)
Definition engine_raw_connection : M raw_connection :=
  pg_call RawConnection (λ _ p, (inr (RawConn None), set_in_use (S (pg_in_use p)) p)).

(** [raw_conn.set_isolation_level(level)].  The level is kept with the
    connection object; in what mode the pool hands the same connection out
    again later is not modelled, and [engine_connect] takes a pooled
    connection to be in a transaction. *)
Definition set_isolation_level (c : raw_connection) (level : Z) : M raw_connection :=
  pg_local (SetIsolationLevel level) id;; mret (RawConn (Some level)).

Definition raw_cursor (c : raw_connection) : M cursor :=
  pg_local CursorOpen id;; mret (Cursor c []).

Definition cursor_execute (cur : cursor) (sql : string) (params : list string) : M cursor :=
  r ← pg_call (CursorExecute sql params) (run_cursor (autocommit (cur_conn cur)) sql params);
  mret (Cursor (cur_conn cur) r).

Definition cursor_fetchone (cur : cursor) : option (list scalar) := head (cur_result cur).

Definition cursor_close (cur : cursor) : M unit := pg_local CursorClose id.

Definition raw_close (c : raw_connection) : M unit :=
  pg_local RawClose (λ p, set_in_use (pred (pg_in_use p)) p).

(** Truth value of [fetchone()]'s result: [None] is false, a row is true. *)
Definition truthy (r : option (list scalar)) : bool :=
  match r with
  | Some (_ :: _) => true
  | _ => false
  end.

(** The tables of the schema, in the catalog's order. *)
Definition table_names (p : pg_server) : list string :=
  match pg_table p with
  | Some _ =>
      take (pg_rank p) (pg_other_tables p) ++
      "test_connection" :: drop (pg_rank p) (pg_other_tables p)
  | None => pg_other_tables p
  end.

(** [inspect(engine).get_table_names()] *)
Definition get_table_names : M (list string) :=
  pg_call GetTableNames (λ _ p, (inr (table_names p), p)).

(** *** The Redis client *)

Definition set_store (m : gmap string (string * option Z)) (r : redis_server) : redis_server :=
  RedisServer m (redis_info r).

(** An entry is there until the clock has passed its expiry time. *)
Definition live (t : Z) (e : string * option Z) : bool :=
  match e.2 with
  | Some expiry => (t <=? expiry)%Z
  | None => true
  end.

Definition redis_ping : M bool :=
  redis_call RedisPing (λ _ r, (inr true, r)).

Definition redis_info_of (section : string) : M (list (string * string)) :=
  redis_call (RedisInfo section) (λ _ r, (inr (redis_info r), r)).

(** [redis_client.set(key, value, ex=ex)]: the entry expires [ex] seconds
    from now. *)
Definition redis_set (key value : string) (ex : Z) : M bool :=
  redis_call (RedisSet key value ex)
    (λ t r, (inr true,
             set_store (<[key := (value, Some (t + ex * 1000)%Z)]> (redis_store r)) r)).

(** [redis_client.get(key)]: the value, or [None] for a missing key. *)
Definition redis_get (key : string) : M scalar :=
  redis_call (RedisGet key)
    (λ t r, (inr match redis_store r !! key with
                 | Some e => if live t e then PStr e.1 else PNone
                 | None => PNone
                 end, r)).

(** [redis_client.ttl(key)]: the time left, in seconds rounded to the
    nearest, -1 without expiry, -2 for a missing key. *)
Definition redis_ttl (key : string) : M Z :=
  redis_call (RedisTtl key)
    (λ t r, (inr match redis_store r !! key with
                 | Some (_, Some expiry) =>
                     if (t <=? expiry)%Z then ((expiry - t + 500) / 1000)%Z else (-2)%Z
                 | Some (_, None) => (-1)%Z
                 | None => (-2)%Z
                 end, r)).

(** ** The handlers of main.py *)

Definition str (s : string) : obj := Val (PStr s).
Definition int (z : Z) : obj := Val (PInt z).

(** [raise HTTPException(status_code=500, detail=str(e))] *)
Definition internal_error {A} (e : exn) : M A := raise (HTTPException 500 (str_exn e)).

(** GET / *)
Definition root : M obj :=
  mret (Dict [("status", str "ok"); ("service", str "testdb")]).

(** GET /pg/connect *)
Definition pg_connect : M obj :=
  try_except
    (with_connect (λ conn,
       result ← conn_execute conn sql_version [];
       let version := scalar_of result in
       mret (Dict [("status", str "connected"); ("version", Val version)])))
    is_OperationalError
    (λ e, raise (HTTPException 500 ("PG connection failed: " +:+ str_exn e))).

(** POST /pg/create-table *)
Definition pg_create_table : M obj :=
  try_except
    (with_connect (λ conn,
       conn_execute conn sql_create_table [];;
       conn_commit conn;;
       mret (Dict [("status", str "ok"); ("message", str "test_connection table created")])))
    is_Exception
    internal_error.

(** POST /pg/insert *)
Definition pg_insert (message : string) : M obj :=
  try_except
    (with_connect (λ conn,
       result ← conn_execute conn sql_insert_returning [("msg", message)];
       let row := fetchone result in
       conn_commit conn;;
       id ← subscript row 0;
       msg ← subscript row 1;
       created_at ← subscript row 2;
       mret (Dict [("status", str "inserted"); ("id", Val id); ("message", Val msg);
                   ("created_at", str (str_scalar created_at))])))
    is_Exception
    internal_error.

(** One element of the list comprehension of [pg_read]. *)
Definition read_row (r : list scalar) : M obj :=
  id ← subscript (Some r) 0;
  msg ← subscript (Some r) 1;
  created_at ← subscript (Some r) 2;
  mret (Dict [("id", Val id); ("message", Val msg);
              ("created_at", str (str_scalar created_at))]).

(** GET /pg/read *)
Definition pg_read : M obj :=
  try_except
    (with_connect (λ conn,
       result ← conn_execute conn sql_read [];
       rows ← mapM read_row (fetchall result);
       mret (Dict [("status", str "ok"); ("count", int (Z.of_nat (length rows)));
                   ("rows", List rows)])))
    is_Exception
    internal_error.

(** POST /pg/create-db *)
Definition pg_create_db (db_name : string) : M obj :=
  try_except
    (raw_conn ← engine_raw_connection;
     raw_conn ← set_isolation_level raw_conn 0;
     cursor ← raw_cursor raw_conn;
     cursor ← cursor_execute cursor sql_db_exists [db_name];
     let exists_ := cursor_fetchone cursor in
     if truthy exists_ then
       cursor_close cursor;;
       raw_close raw_conn;;
       mret (Dict [("status", str "already_exists"); ("db_name", str db_name)])
     else
       cursor ← cursor_execute cursor (sql_create_database db_name) [];
       cursor_close cursor;;
       raw_close raw_conn;;
       mret (Dict [("status", str "created"); ("db_name", str db_name)]))
    is_Exception
    internal_error.

(** [db_name in ("openLLM", "postgres")] *)
Definition protected (db_name : string) : bool :=
  String.eqb db_name "openLLM" || String.eqb db_name "postgres".

(** DELETE /pg/drop-db *)
Definition pg_drop_db (db_name : string) : M obj :=
  if protected db_name then
    raise (HTTPException 400 "Cannot drop protected database")
  else
    try_except
      (raw_conn ← engine_raw_connection;
       raw_conn ← set_isolation_level raw_conn 0;
       cursor ← raw_cursor raw_conn;
       cursor ← cursor_execute cursor (sql_drop_database db_name) [];
       cursor_close cursor;;
       raw_close raw_conn;;
       mret (Dict [("status", str "dropped"); ("db_name", str db_name)]))
      is_Exception
      internal_error.

(** GET /pg/tables *)
Definition pg_tables : M obj :=
  try_except
    (tables ← get_table_names;
     mret (Dict [("status", str "ok"); ("tables", List (str <$> tables))]))
    is_Exception
    internal_error.

(** [info.get(k)] *)
Definition info_get (k : string) (info : list (string * string)) : scalar :=
  match assoc_get k info with
  | Some v => PStr v
  | None => PNone
  end.

(** GET /redis/connect *)
Definition redis_connect : M obj :=
  try_except
    (pong ← redis_ping;
     info ← redis_info_of "server";
     mret (Dict [("status", str "connected"); ("ping", Val (PBool pong));
                 ("redis_version", Val (info_get "redis_version" info))]))
    is_Exception
    (λ e, raise (HTTPException 500 ("Redis connection failed: " +:+ str_exn e))).

(** POST /redis/write *)
Definition redis_write (key value : string) : M obj :=
  try_except
    (redis_set key value 300;;
     mret (Dict [("status", str "written"); ("key", str key); ("value", str value);
                 ("ttl", int 300)]))
    is_Exception
    internal_error.

(** GET /redis/read *)
Definition redis_read (key : string) : M obj :=
  try_except
    (value ← redis_get key;
     ttl ← redis_ttl key;
     mret (Dict [("status", str "ok"); ("key", str key); ("value", Val value);
                 ("ttl", int ttl)]))
    is_Exception
    internal_error.

Definition section_error (e : exn) : obj :=
  Dict [("status", str "error"); ("detail", str (str_exn e))].

(** The three sections of [test_all]; each takes the [results] dict built
    so far and gives it back with its own key set. *)
Definition test_all_pg_connect (results : obj) : M obj :=
  try_except
    (with_connect (λ conn,
       result ← conn_execute conn sql_version [];
       let ver := scalar_of result in
       mret (dict_set "pg_connect" (Dict [("status", str "ok"); ("version", Val ver)]) results)))
    is_Exception
    (λ e, mret (dict_set "pg_connect" (section_error e) results)).

Definition test_all_pg_readwrite (results : obj) : M obj :=
  try_except
    (with_connect (λ conn,
       conn_execute conn sql_create_table [];;
       t ← time_time;
       conn_execute conn sql_insert [("msg", "test_all at " +:+ str_float t)];;
       conn_commit conn;;
       result ← conn_execute conn sql_count [];
       let count := scalar_of result in
       mret (dict_set "pg_readwrite" (Dict [("status", str "ok"); ("row_count", Val count)])
               results)))
    is_Exception
    (λ e, mret (dict_set "pg_readwrite" (section_error e) results)).

Definition test_all_redis (results : obj) : M obj :=
  try_except
    (pong ← redis_ping;
     redis_set "testall_key" "testall_value" 60;;
     val ← redis_get "testall_key";
     mret (dict_set "redis" (Dict [("status", str "ok"); ("ping", Val (PBool pong));
                                   ("read_back", Val val)]) results))
    is_Exception
    (λ e, mret (dict_set "redis" (section_error e) results)).

(** GET /test-all *)
Definition test_all : M obj :=
  let results := Dict [] in
  results ← test_all_pg_connect results;
  results ← test_all_pg_readwrite results;
  results ← test_all_redis results;
  mret results.

(** ** Routing *)

(** A request: the route and its query parameters, [None] for a parameter
    the client left out. *)
Inductive request :=
| GET_root
| GET_pg_connect
| POST_pg_create_table
| POST_pg_insert (message : option string)
| GET_pg_read
| POST_pg_create_db (db_name : option string)
| DELETE_pg_drop_db (db_name : option string)
| GET_pg_tables
| GET_redis_connect
| POST_redis_write (key value : option string)
| GET_redis_read (key : option string)
| GET_test_all.

Definition app (r : request) : M obj :=
  match r with
  | GET_root => root
  | GET_pg_connect => pg_connect
  | POST_pg_create_table => pg_create_table
  | POST_pg_insert message => pg_insert (default "hello from testdb" message)
  | GET_pg_read => pg_read
  | POST_pg_create_db db_name => pg_create_db (default "test_newdb" db_name)
  | DELETE_pg_drop_db db_name => pg_drop_db (default "test_newdb" db_name)
  | GET_pg_tables => pg_tables
  | GET_redis_connect => redis_connect
  | POST_redis_write key value =>
      redis_write (default "test_key" key) (default "hello_redis" value)
  | GET_redis_read key => redis_read (default "test_key" key)
  | GET_test_all => test_all
  end.

(** What the framework makes of a handler's outcome: the returned dict with
    status 200, an [HTTPException] as its status and [{detail: ...}], and
    any other exception left to the server's own error handling. *)
Inductive response :=
| Response (status_code : Z) (body : obj)
| Unhandled (e : exn).

Definition respond (r : exn + obj) : response :=
  match r with
  | inr body => Response 200 body
  | inl (HTTPException status detail) => Response status (Dict [("detail", str detail)])
  | inl e => Unhandled e
  end.

Definition serve (r : request) (w : world) : response * world :=
  let '(out, w') := app r w in (respond out, w').

(** ** Notions used to state the properties *)

(** [n] times the same request, one after the other. *)
Fixpoint requests (n : nat) (r : request) (w : world) : list response * world :=
  match n with
  | O => ([], w)
  | S n' =>
      let '(x, w1) := serve r w in
      let '(xs, w2) := requests n' r w1 in
      (x :: xs, w2)
  end.

(** The client calls made between two worlds, and the faults among them. *)
Definition calls_since (w w' : world) : list event := drop (length (trace w)) (trace w').
Definition faults_in (evs : list event) : list fault := omap ev_fault evs.
Definition issued (evs : list event) : list call := ev_call <$> evs.

(** Ids come from the sequence: every committed row has an id below the
    sequence's next value. *)
Definition serial_ok (p : pg_server) : Prop :=
  ∀ rows, pg_table p = Some rows → Forall (λ r, (row_id r < pg_seq p)%Z) rows.

(** A row as [pg_read] reports it. *)
Definition row_dict (r : row) : obj :=
  Dict [("id", int (row_id r)); ("message", str (row_message r));
        ("created_at", str (str_datetime (row_created_at r)))].

Definition by_id_desc (a b : row) : Prop := (row_id b ≤ row_id a)%Z.

Definition bad_request (detail : string) : response :=
  Response 400 (Dict [("detail", str detail)]).
Definition server_error (detail : string) : response :=
  Response 500 (Dict [("detail", str detail)]).

(** The faults a computation logs are exactly the one it propagates. *)
Definition tracked {A} (m : M A) : Prop :=
  ∀ w, ∃ evs, trace (m w).2 = trace w ++ evs ∧
              faults_in evs = match (m w).1 with inl (Backend f) => [f] | _ => [] end.

(** A database name that PostgreSQL reads back unchanged from between the
    quotes of the interpolated statement. *)
Definition plain_name (s : string) : Prop :=
  s ≠ "" ∧ has_char dquote s = false ∧ has_char nul s = false.

(** The bodies of the successful answers. *)
Definition table_created : obj :=
  Dict [("status", str "ok"); ("message", str "test_connection table created")].

(** What the ten rows on top of the ordering are, in terms of the table. *)
Definition latest (rows shown : list row) : Prop :=
  length shown = Nat.min 10 (length rows)
  ∧ StronglySorted by_id_desc shown
  ∧ shown ⊆+ rows
  ∧ ∀ r r', r ∈ shown → r' ∈ rows → r' ∉ shown → (row_id r' ≤ row_id r)%Z.

Definition read_response (shown : list row) : obj :=
  Dict [("status", str "ok"); ("count", int (Z.of_nat (length shown)));
        ("rows", List (row_dict <$> shown))].

Definition inserted (r : row) : obj :=
  Dict [("status", str "inserted"); ("id", int (row_id r)); ("message", str (row_message r));
        ("created_at", str (str_datetime (row_created_at r)))].

Definition already_exists (db_name : string) : obj :=
  Dict [("status", str "already_exists"); ("db_name", str db_name)].
Definition created (db_name : string) : obj :=
  Dict [("status", str "created"); ("db_name", str db_name)].

(** The report of a section of [/test-all] that failed, as the
    specification words it: status [error] and the detail. *)
Definition error_report (detail : string) : obj :=
  Dict [("status", Val (PStr "error")); ("detail", Val (PStr detail))].

(** What a section of [/test-all] does between two worlds and puts under
    its key: it makes calls of its own, and reports [ok] when none of them
    failed, else [error] with the message of the one that did. *)
Definition section_outcome (w w' : world) (r : obj) : Prop :=
  ∃ evs, trace w' = trace w ++ evs
         ∧ ((faults_in evs = [] ∧ field "status" r = Some (Val (PStr "ok")))
            ∨ (∃ f, faults_in evs = [f] ∧ r = error_report (fault_msg f))).

(** The calls of a section that goes through. *)
Definition version_check : list call :=
  [EngineConnect; ConnExecute "SELECT version()" []; ConnClose].

(** The statement the specification has [/pg/drop-db] send for a name. *)
Definition drop_if_exists (name : string) : string :=
  "DROP DATABASE IF EXISTS " +:+ String "034"%char (name +:+ String "034"%char EmptyString).

(** The database the server takes a drop statement to be about. *)
Definition drop_target (sql : string) : option string :=
  match strip_prefix "DROP DATABASE IF EXISTS " sql with
  | Some operand =>
      match database_operand operand with
      | Names n => Some n
      | _ => None
      end
  | None => None
  end.

(** What a section leaves alone. *)
Definition pg_section_frame (w w' : world) : Prop :=
  redis w' = redis w ∧ redis_faults w' = redis_faults w ∧ now w' = now w.

(** A computation that leaves the pool's count as it found it. *)
Definition gives_back {A} (m : M A) : Prop :=
  ∀ w, pg_in_use (pg (m w).2) = pg_in_use (pg w).

(** ** The specification's sentences that the code does not bear out

    Each is written down as the specification has it, to be compared with
    what the handlers do. *)

(** Every backend fault comes back as a 500 whose detail is the fault's
    own message. *)
Definition every_fault_is_a_500_with_its_message : Prop :=
  ∀ req w resp w' f,
    serve req w = (resp, w') → f ∈ faults_in (calls_since w w') →
    resp = server_error (fault_msg f).

(** Whatever the name, creating a database that is not there answers
    [created], and creating it again answers [already_exists]. *)
Definition create_db_twice_for_every_name : Prop :=
  ∀ db_name w,
    quiet (pg_faults w) → namein db_name ∉ pg_databases (pg w) →
    ∃ w1 w2,
      pg_create_db db_name w = (inr (created db_name), w1)
      ∧ pg_create_db db_name w1 = (inr (already_exists db_name), w2).

(** [pg_read] gives the latest ten rows, each with id, message and
    created_at as text. *)
Definition read_rows_all_text : Prop :=
  ∀ w rows,
    quiet (pg_faults w) → pg_table (pg w) = Some rows →
    ∃ shown items w',
      pg_read w =
        (inr (Dict [("status", str "ok"); ("count", int (Z.of_nat (length shown)));
                    ("rows", List items)]), w')
      ∧ (length shown ≤ 10)%nat ∧ latest rows shown ∧ length items = length shown
      ∧ ∀ item k, item ∈ items → k ∈ ["id"; "message"; "created_at"] →
          ∃ s, field k item = Some (str s).

(** A read of a key before its expiry gives the value back with a ttl
    above zero and at most 300. *)
Definition ttl_is_positive_before_expiry : Prop :=
  ∀ key value w dt,
    quiet (redis_faults w) → (0 ≤ dt < 300 * 1000)%Z →
    ∃ body w1 ttl w2,
      redis_write key value w = (inr body, w1)
      ∧ redis_read key (elapse dt w1) =
          (inr (Dict [("status", str "ok"); ("key", str key); ("value", str value);
                      ("ttl", int ttl)]), w2)
      ∧ (0 < ttl ≤ 300)%Z.


(** Inside a transaction the same holds of what the transaction sees, and
    a table the transaction does not see does not exist. *)
Definition ids_below (p : pg_server) : Prop :=
  serial_ok p
  ∧ (∀ rows, pg_work p = Some rows → Forall (λ r, (row_id r < pg_seq p)%Z) rows)
  ∧ (pg_work p = None → pg_table p = None).

Definition keeps (I : pg_server → Prop) {A} (m : M A) : Prop :=
  ∀ w, I (pg w) → I (pg (m w).2).

(** ** Notions for the further properties *)

Definition pg_data (p : pg_server) : gset string * option (list row) * Z * list string * string :=
  (pg_databases p, pg_table p, pg_seq p, pg_other_tables p, pg_version p).

Definition reads_only (req : request) : bool :=
  match req with
  | GET_root | GET_pg_connect | GET_pg_read | GET_pg_tables
  | GET_redis_connect | GET_redis_read _ => true
  | _ => false
  end.

Definition takes_raw_connection (req : request) : bool :=
  match req with
  | POST_pg_create_db _ | DELETE_pg_drop_db _ => true
  | _ => false
  end.

(** The four kinds of answer: a 200, which outside [/test-all] means that
    no call failed; a 500 with a detail; the 400 of the drop guard, before
    any call; and an exception that [/pg/connect] does not catch. *)
Definition answer_kind (req : request) (w w' : world) (resp : response) : Prop :=
  (∃ body, resp = Response 200 body
           ∧ (req ≠ GET_test_all → faults_in (calls_since w w') = []))
  ∨ (∃ detail, resp = server_error detail ∧ req ≠ GET_test_all ∧ req ≠ GET_root)
  ∨ (resp = bad_request "Cannot drop protected database"
     ∧ calls_since w w' = []
     ∧ ∃ db_name, req = DELETE_pg_drop_db (Some db_name) ∧ protected db_name = true)
  ∨ (∃ f, resp = Unhandled (Backend f) ∧ req = GET_pg_connect
          ∧ fault_cls f ≠ OperationalError ∧ faults_in (calls_since w w') = [f]).

Definition read_answer (key : string) (value : scalar) (ttl : Z) : obj :=
  Dict [("status", str "ok"); ("key", str key); ("value", Val value); ("ttl", int ttl)].

(** What a read says about a key that is not there. *)
Definition key_missing (key : string) : obj := read_answer key PNone (-2).

Definition dropped (db_name : string) : obj :=
  Dict [("status", str "dropped"); ("db_name", str db_name)].

Definition tables_answer (names : list string) : obj :=
  Dict [("status", str "ok"); ("tables", List (str <$> names))].

(** ** Concrete servers and requests, for the runs at the end *)

(** Instances of the four outside functions: identifiers clipped to 63
    bytes, printers that show a time by its count of milliseconds and by
    its seconds and milliseconds, and a server that takes every statement
    left to it for a syntax error. *)
Definition clip63 (s : string) : string := substring 0 63 s.
Definition show_datetime (t : Z) : string := "t=" +:+ pretty t.
Definition show_time (t : Z) : string := pretty (t `div` 1000)%Z +:+ "." +:+ pretty (t `mod` 1000)%Z.
Definition reads_no_more (autocommit : bool) (sql : string) (c : gmap string bool)
    : option fault * gmap string bool :=
  (Some syntax_error, c).

(** A cluster as it is set up: the service is connected to [postgres], the
    two templates are there, and [openLLM] has no session on it. *)
Definition catalog_fresh : gmap string bool :=
  {["postgres" := true; "template0" := true; "template1" := true; "openLLM" := false]}.
Definition pg_fresh : pg_server :=
  PgServer "PostgreSQL 16.1" catalog_fresh None None 1 [] 0 0.
Definition redis_fresh : redis_server := RedisServer ∅ [("redis_version", "7.2.4")].

(** Both servers up, nothing created yet. *)
Definition w_fresh : world := World pg_fresh redis_fresh 1700000000000 [] healthy healthy.

Definition connection_refused : fault := Fault OperationalError "connection refused".
Definition pool_exhausted : fault := Fault PoolTimeout "QueuePool limit reached".

(** PostgreSQL fails once, then works. *)
Definition w_pg_hiccup : world :=
  World pg_fresh redis_fresh 1700000000000 [] (Schedule [Some connection_refused] None) healthy.
(** PostgreSQL is down for good, Redis is up. *)
Definition w_pg_down : world :=
  World pg_fresh redis_fresh 1700000000000 [] (down connection_refused) healthy.
(** The pool times out on the next checkout. *)
Definition w_pool_exhausted : world :=
  World pg_fresh redis_fresh 1700000000000 [] (Schedule [Some pool_exhausted] None) healthy.

(** A table of twelve rows, ids 1 to 12, stored out of order. *)
Definition twelve_rows : list row :=
  (λ i, Row i ("m" +:+ pretty i) (1699990000000 + i)) <$>
    [3; 1; 2; 12; 5; 4; 7; 6; 9; 8; 11; 10]%Z.
Definition w_twelve : world :=
  World (PgServer "PostgreSQL 16.1" catalog_fresh
           (Some twelve_rows) (Some twelve_rows) 13 [] 0 0)
        redis_fresh 1700000000000 [] healthy healthy.

(** A name with a double quote in it: a, quote, b. *)
Definition quoted_name : string := String "a" (String dquote "b").

(** A name that closes the quote of the statement and comments out the
    quote that the statement closes with: openLLM, quote, space, two
    dashes. *)
Definition closing_name : string := "openLLM" +:+ String dquote " --".

(** The third call to PostgreSQL fails (for an insert: the commit), on a
    server with the twelve rows, and on one without the table. *)
Definition w_commit_fails : world :=
  World (pg w_twelve) redis_fresh 1700000000000 []
        (Schedule [None; None; Some connection_refused] None) healthy.
Definition w_commit_fails_no_table : world :=
  World pg_fresh redis_fresh 1700000000000 []
        (Schedule [None; None; Some connection_refused] None) healthy.

(** A Redis whose server section has no version entry. *)
Definition w_no_version : world :=
  World pg_fresh (RedisServer ∅ []) 1700000000000 [] healthy healthy.

(** A server with one table of another service, listed after
    [test_connection], and one where the sequence has given out its last
    value. *)
Definition w_other_table : world :=
  World (PgServer "PostgreSQL 16.1" catalog_fresh None None 1 ["other_later"] 0 0)
        redis_fresh 1700000000000 [] healthy healthy.
Definition w_exhausted : world :=
  World (PgServer "PostgreSQL 16.1" catalog_fresh (Some []) (Some []) (int4_max + 1) [] 0 0)
        redis_fresh 1700000000000 [] healthy healthy.

(** ** Stepping through calls that the environment lets through *)

Lemma pop_quiet s : quiet s → pop s = (None, rest s).
Proof.
  destruct s as [[|x l] t]; intros [H1 H2]; simpl in *; subst; [reflexivity|].
  inversion H1; subst. reflexivity.
Qed.

Lemma quiet_rest s : quiet s → quiet (rest s).
Proof.
  destruct s as [[|x l] t]; intros [H1 H2]; split; simpl in *; auto.
  inversion H1; auto.
Qed.

Lemma quiet_healthy : quiet healthy.
Proof. split; [constructor | reflexivity]. Qed.

Lemma pg_call_quiet {A} c (run : Z → pg_server → (fault + A) * pg_server) w :
  quiet (pg_faults w) →
  pg_call c run w =
    match run (now w) (pg w) with
    | (inl f, p') =>
        (inl (Backend f),
         World p' (redis w) (now w) (trace w ++ [Event c (Some f)])
               (rest (pg_faults w)) (redis_faults w))
    | (inr a, p') =>
        (inr a,
         World p' (redis w) (now w) (trace w ++ [Event c None])
               (rest (pg_faults w)) (redis_faults w))
    end.
Proof. intros H. unfold pg_call. rewrite (pop_quiet _ H). reflexivity. Qed.

Lemma redis_call_quiet {A} c (run : Z → redis_server → (fault + A) * redis_server) w :
  quiet (redis_faults w) →
  redis_call c run w =
    match run (now w) (redis w) with
    | (inl f, r') =>
        (inl (Backend f),
         World (pg w) r' (now w) (trace w ++ [Event c (Some f)])
               (pg_faults w) (rest (redis_faults w)))
    | (inr a, r') =>
        (inr a,
         World (pg w) r' (now w) (trace w ++ [Event c None])
               (pg_faults w) (rest (redis_faults w)))
    end.
Proof. intros H. unfold redis_call. rewrite (pop_quiet _ H). reflexivity. Qed.

Lemma bind_eq {A B} (m : M A) (k : A → M B) w :
  (m ≫= k) w = match m w with (inl e, w') => (inl e, w') | (inr a, w') => k a w' end.
Proof. reflexivity. Qed.

Lemma run_text_version params t p :
  run_text sql_version params t p = (inr [[PStr (pg_version p)]], p).
Proof. reflexivity. Qed.

Lemma run_text_create_table params t p :
  run_text sql_create_table params t p = (inr [], create_table_if_not_exists p).
Proof. reflexivity. Qed.

Lemma run_text_insert_returning m t p :
  run_text sql_insert_returning [("msg", m)] t p =
    match insert_row t m p with
    | (inl f, p') => (inl f, p')
    | (inr r, p') => (inr [columns r], p')
    end.
Proof. reflexivity. Qed.

Lemma run_text_insert m t p :
  run_text sql_insert [("msg", m)] t p =
    match insert_row t m p with
    | (inl f, p') => (inl f, p')
    | (inr r, p') => (inr [], p')
    end.
Proof. reflexivity. Qed.

Lemma run_text_read params t p :
  run_text sql_read params t p =
    match pg_work p with
    | None => (inl undefined_table, p)
    | Some rows => (inr (columns <$> take 10 (order_by_id_desc rows)), p)
    end.
Proof. reflexivity. Qed.

Lemma run_text_count params t p :
  run_text sql_count params t p =
    match pg_work p with
    | None => (inl undefined_table, p)
    | Some rows => (inr [[PInt (Z.of_nat (length rows))]], p)
    end.
Proof. reflexivity. Qed.

#[local] Arguments run_text : simpl never.
#[local] Arguments run_cursor : simpl never.

Ltac quiet_step :=
  rewrite ?bind_eq;
  first [ rewrite pg_call_quiet by (cbn; auto using quiet_rest)
        | rewrite redis_call_quiet by (cbn; auto using quiet_rest) ];
  rewrite ?run_text_version, ?run_text_create_table, ?run_text_insert_returning,
    ?run_text_insert, ?run_text_read, ?run_text_count;
  cbn.

(** ** Protected databases *)

Lemma protected_iff db_name :
  protected db_name = true ↔ db_name = "openLLM" ∨ db_name = "postgres".
Proof.
  unfold protected. rewrite orb_true_iff, !String.eqb_eq. reflexivity.
Qed.

Lemma serve_drop_protected db_name w :
  protected db_name = true →
  serve (DELETE_pg_drop_db (Some db_name)) w =
    (bad_request "Cannot drop protected database", w).
Proof.
  intros H. unfold serve, app.
  change (default "test_newdb" (Some db_name)) with db_name.
  unfold pg_drop_db. rewrite H. reflexivity.
Qed.

(** C1.  A request to drop [postgres] or [openLLM] is answered with HTTP 400
    before any call to the backend: the world after the request is the
    world before it (no call logged, no database dropped), however many
    times the request is made. *)
Theorem drop_protected_always_refused db_name n w :
  db_name = "postgres" ∨ db_name = "openLLM" →
  requests n (DELETE_pg_drop_db (Some db_name)) w =
    (replicate n (bad_request "Cannot drop protected database"), w).
Proof.
  intros H. assert (Hp : protected db_name = true) by (apply protected_iff; tauto).
  induction n as [|n IH]; [reflexivity|].
  cbn [requests replicate]. rewrite (serve_drop_protected _ _ Hp), IH. reflexivity.
Qed.

Lemma calls_since_app w w' evs : trace w' = trace w ++ evs → calls_since w w' = evs.
Proof. intros H. unfold calls_since. rewrite H. apply drop_app_length. Qed.

(** One call to the server, whatever the environment does to it. *)
Ltac settle := repeat first [rewrite bind_eq | progress cbn].

Ltac call_cases :=
  settle;
  first
    [ unfold pg_call at 1; cbn [pg_faults];
      match goal with
      | |- context [pop ?s] =>
          let f := fresh "f" in let s' := fresh "s" in let H := fresh "Hpop" in
          destruct (pop s) as [[f|] s'] eqn:H
      end
    | unfold redis_call at 1; cbn [redis_faults];
      match goal with
      | |- context [pop ?s] =>
          let f := fresh "f" in let s' := fresh "s" in let H := fresh "Hpop" in
          destruct (pop s) as [[f|] s'] eqn:H
      end ];
  cbn.

(** How the server reads a name without a quote in it. *)
Lemma quoted_ident_plain s :
  has_char dquote s = false → has_char nul s = false →
  quoted_ident (s +:+ String dquote EmptyString) = Some (s, EmptyString).
Proof.
  induction s as [|c s IH]; [reflexivity|].
  cbn [has_char]. destruct (Ascii.eqb c dquote) eqn:Hq; [discriminate|].
  destruct (Ascii.eqb c nul) eqn:Hn; [discriminate|].
  intros H1 H2. simpl. rewrite Hq, Hn, IH by assumption.
  reflexivity.
Qed.

Lemma database_operand_plain s :
  plain_name s →
  database_operand (String dquote (s +:+ String dquote EmptyString)) = Names s.
Proof.
  intros (Hne & Hq & Hn). unfold database_operand.
  change (Ascii.eqb dquote dquote) with true. cbn match.
  rewrite quoted_ident_plain by assumption.
  destruct s; [contradiction | reflexivity].
Qed.



(** ** The cache *)

(** The seconds that [ttl] reports for the milliseconds left. *)
Lemma ttl_rounding left :
  (0 ≤ left ≤ 300 * 1000)%Z →
  (0 ≤ (left + 500) / 1000 ≤ 300)%Z ∧ (0 < (left + 500) / 1000 ↔ 500 ≤ left)%Z.
Proof. clear. intros H. Z.div_mod_to_equations. lia. Qed.

Lemma ttl_whole_seconds k : ((300 * 1000 - 1000 * k + 500) / 1000 = 300 - k)%Z.
Proof. clear. Z.div_mod_to_equations. lia. Qed.

(** C9, amended.  [/redis/write] stores the value under the key with an
    expiry 300 seconds ahead, whatever was there before, and answers with
    status, key, value and ttl 300; a [/redis/read] of the key at any time
    up to the expiry gives the value back with a ttl from 0 to 300: the
    time left rounded to the nearest second, which is 0 in the last half
    second. *)
Theorem redis_write_then_read key value w :
  quiet (redis_faults w) →
  ∃ w1,
    redis_write key value w =
      (inr (Dict [("status", str "written"); ("key", str key); ("value", str value);
                  ("ttl", int 300)]), w1)
    ∧ redis_store (redis w1) =
        <[key := (value, Some (now w + 300 * 1000)%Z)]> (redis_store (redis w))
    ∧ ∀ dt, (0 ≤ dt ≤ 300 * 1000)%Z →
        ∃ ttl w2,
          redis_read key (elapse dt w1) =
            (inr (Dict [("status", str "ok"); ("key", str key); ("value", str value);
                        ("ttl", int ttl)]), w2)
          ∧ ttl = ((300 * 1000 - dt + 500) / 1000)%Z
          ∧ (0 ≤ ttl ≤ 300)%Z
          ∧ (0 < ttl ↔ dt ≤ 300 * 1000 - 500)%Z.
Proof.
  intros Hq. unfold redis_write, try_except, redis_set. quiet_step.
  eexists. split; [reflexivity|]. split; [reflexivity|].
  intros dt Hdt. unfold redis_read, try_except, redis_get, redis_ttl.
  assert (Hle : (now w + dt <=? now w + 300 * 1000)%Z = true) by (apply Z.leb_le; lia).
  quiet_step. rewrite lookup_insert_eq. unfold live. cbn [snd fst]. rewrite Hle.
  quiet_step. rewrite lookup_insert_eq, Hle.
  replace (now w + 300 * 1000 - (now w + dt))%Z with (300 * 1000 - dt)%Z by lia.
  eexists _, _. split; [reflexivity|]. split; [reflexivity|].
  destruct (ttl_rounding (300 * 1000 - dt)%Z) as [H1 H2]; [lia|].
  split; [exact H1|]. rewrite H2. lia.
Qed.

(** ** The test table *)

Lemma pg_create_table_quiet w :
  quiet (pg_faults w) →
  pg_create_table w =
    (inr table_created,
     World (set_in_use (pg_in_use (pg w))
              (rollback_work (commit_work (create_table_if_not_exists
                 (set_in_use (S (pg_in_use (pg w))) (rollback_work (pg w)))))))
           (redis w) (now w)
           (trace w ++ [Event EngineConnect None; Event (ConnExecute sql_create_table []) None;
                        Event ConnCommit None; Event ConnClose None])
           (rest (rest (rest (pg_faults w)))) (redis_faults w)).
Proof.
  intros Hq.
  unfold pg_create_table, try_except, with_connect, engine_connect, conn_execute, conn_commit.
  do 3 quiet_step. unfold table_created. f_equal. f_equal.
  - destruct (pg w) as [? ? [?|] ? ? ? ?]; reflexivity.
  - rewrite <- !app_assoc. reflexivity.
Qed.

(** C7.  [/pg/create-table] is idempotent: a second call gives the same ok
    answer and leaves the server as the first call left it; a table that
    was already there keeps its rows and its sequence. *)
Theorem pg_create_table_idempotent w :
  quiet (pg_faults w) →
  ∃ w1 w2,
    pg_create_table w = (inr table_created, w1)
    ∧ pg_create_table w1 = (inr table_created, w2)
    ∧ pg w2 = pg w1 ∧ redis w2 = redis w1
    ∧ pg_table (pg w1) = Some (default [] (pg_table (pg w)))
    ∧ (is_Some (pg_table (pg w)) → pg_seq (pg w1) = pg_seq (pg w))
    ∧ pg_databases (pg w1) = pg_databases (pg w)
    ∧ pg_other_tables (pg w1) = pg_other_tables (pg w).
Proof.
  intros Hq. eexists _, _. split; [apply pg_create_table_quiet; assumption|].
  split; [apply pg_create_table_quiet; cbn; auto using quiet_rest|].
  cbn. destruct (pg w) as [v d [rows|] wk sq ot n]; cbn; repeat split; auto.
  all: try (intros [x Hx]; discriminate).
Qed.

(** *** ORDER BY id DESC LIMIT 10 *)

Lemma insert_desc_perm r l : insert_desc r l ≡ₚ r :: l.
Proof.
  induction l as [|x l IH]; [reflexivity|]. cbn.
  destruct (row_id x <=? row_id r)%Z; [reflexivity|].
  rewrite IH. apply Permutation_swap.
Qed.

Lemma order_by_id_desc_perm l : order_by_id_desc l ≡ₚ l.
Proof.
  induction l as [|x l IH]; [reflexivity|].
  cbn. rewrite insert_desc_perm. f_equiv. exact IH.
Qed.

Lemma insert_desc_sorted r l :
  StronglySorted by_id_desc l → StronglySorted by_id_desc (insert_desc r l).
Proof.
  induction l as [|x l IH]; intros Hs; cbn.
  - repeat constructor.
  - apply StronglySorted_cons in Hs as [Hx Hl].
    destruct (row_id x <=? row_id r)%Z eqn:Hle.
    + apply Z.leb_le in Hle. constructor; [constructor; assumption|].
      constructor; [exact Hle|].
      eapply Forall_impl; [exact Hx|]. unfold by_id_desc. cbn. intros; lia.
    + apply Z.leb_gt in Hle. constructor; [auto|].
      rewrite insert_desc_perm. constructor; [unfold by_id_desc; lia | assumption].
Qed.

Lemma order_by_id_desc_sorted l : StronglySorted by_id_desc (order_by_id_desc l).
Proof.
  induction l as [|x l IH]; cbn; [constructor | apply insert_desc_sorted, IH].
Qed.

(** The row just inserted, with an id above all others, comes first. *)
Lemma order_by_id_desc_newest rows x :
  Forall (λ r, (row_id r < row_id x)%Z) rows →
  order_by_id_desc (rows ++ [x]) = x :: order_by_id_desc rows.
Proof.
  induction 1 as [|a rows Ha _ IH]; [reflexivity|].
  cbn. unfold order_by_id_desc in IH. rewrite IH. cbn.
  destruct (row_id x <=? row_id a)%Z eqn:Hle; [apply Z.leb_le in Hle; lia | reflexivity].
Qed.

Lemma latest_take rows : latest rows (take 10 (order_by_id_desc rows)).
Proof.
  pose proof (order_by_id_desc_sorted rows) as Hs.
  pose proof (order_by_id_desc_perm rows) as Hp.
  rewrite <- (take_drop 10 (order_by_id_desc rows)) in Hs.
  split; [|split; [|split]].
  - rewrite length_take, Hp. lia.
  - eapply StronglySorted_app_1_l, Hs.
  - trans (order_by_id_desc rows); [apply submseteq_take | by rewrite Hp].
  - intros r r' Hr Hr' Hn.
    apply (StronglySorted_app_1_elem_of _ _ _ r r' Hs Hr).
    assert (Hin : r' ∈ order_by_id_desc rows) by (by rewrite Hp).
    rewrite <- (take_drop 10 (order_by_id_desc rows)) in Hin.
    apply elem_of_app in Hin as [?|?]; [contradiction | assumption].
Qed.

(** *** Reading *)

Lemma mapM_read_row l w :
  mapM read_row (columns <$> l) w = (inr (row_dict <$> l), w).
Proof.
  induction l as [|r l IH]; [reflexivity|].
  cbn. settle. rewrite IH. reflexivity.
Qed.

Lemma pg_read_quiet w rows :
  quiet (pg_faults w) → pg_table (pg w) = Some rows →
  pg_read w =
    (inr (read_response (take 10 (order_by_id_desc rows))),
     World (set_in_use (pg_in_use (pg w)) (rollback_work (pg w))) (redis w) (now w)
           (trace w ++ [Event EngineConnect None; Event (ConnExecute sql_read []) None;
                        Event ConnClose None])
           (rest (rest (pg_faults w))) (redis_faults w)).
Proof.
  intros Hq Ht.
  unfold pg_read, try_except, with_connect, engine_connect, conn_execute, fetchall.
  do 2 quiet_step. rewrite Ht. cbn. rewrite bind_eq, mapM_read_row. cbn.
  unfold read_response. rewrite length_fmap. f_equal. f_equal.
  all: try (rewrite <- !app_assoc; reflexivity).
  all: destruct (pg w); cbn in *; subst; reflexivity.
Qed.

Lemma pg_read_inv w resp w' :
  pg_read w = (inr resp, w') →
  ∃ rows, pg_table (pg w) = Some rows
          ∧ resp = read_response (take 10 (order_by_id_desc rows))
          ∧ pg_table (pg w') = Some rows.
Proof.
  unfold pg_read, try_except, with_connect, engine_connect, conn_execute, fetchall.
  call_cases; [discriminate|].
  call_cases; [discriminate|].
  rewrite run_text_read. cbn.
  destruct (pg_table (pg w)) as [rows|] eqn:Ht; cbn; [|discriminate].
  rewrite bind_eq, mapM_read_row. cbn. intros [= <- <-].
  exists rows. unfold read_response. rewrite length_fmap. auto.
Qed.

(** *** Inserting *)

Lemma insert_row_inv t m p r p' :
  insert_row t m p = (inr r, p') →
  ∃ rows, pg_work p = Some rows ∧ r = Row (pg_seq p) m t
          ∧ p' = set_work (Some (rows ++ [r])) (set_seq (pg_seq p + 1) p).
Proof.
  unfold insert_row. destruct (has_char nul m); [discriminate|].
  destruct (pg_work p) as [rows|]; [|discriminate].
  destruct (int4_max <? pg_seq p)%Z; [discriminate|].
  destruct (existsb _ rows); [discriminate|].
  intros [= <- <-]. eauto.
Qed.

Lemma insert_row_fresh t m p rows :
  has_char nul m = false → pg_work p = Some rows → (pg_seq p ≤ int4_max)%Z →
  Forall (λ r, (row_id r < pg_seq p)%Z) rows →
  insert_row t m p =
    (inr (Row (pg_seq p) m t),
     set_work (Some (rows ++ [Row (pg_seq p) m t])) (set_seq (pg_seq p + 1) p)).
Proof.
  intros Hm Hw Hmax Hs. unfold insert_row. rewrite Hm, Hw.
  replace (int4_max <? pg_seq p)%Z with false by (symmetry; apply Z.ltb_ge; exact Hmax).
  replace (existsb _ rows) with false; [reflexivity|].
  symmetry. apply not_true_is_false. intros He.
  apply existsb_exists in He as (x & Hx & Heq).
  apply list_elem_of_In in Hx. rewrite Forall_forall in Hs. apply Hs in Hx.
  apply Z.eqb_eq in Heq. lia.
Qed.

Lemma pg_insert_inv message w r1 w1 :
  pg_insert message w = (inr r1, w1) →
  ∃ rows, pg_table (pg w) = Some rows
          ∧ r1 = inserted (Row (pg_seq (pg w)) message (now w))
          ∧ pg_table (pg w1) = Some (rows ++ [Row (pg_seq (pg w)) message (now w)])
          ∧ pg_seq (pg w1) = (pg_seq (pg w) + 1)%Z.
Proof.
  unfold pg_insert, try_except, with_connect, engine_connect, conn_execute, conn_commit,
    fetchone.
  call_cases; [discriminate|].
  call_cases; [discriminate|].
  rewrite run_text_insert_returning.
  destruct (insert_row _ _ _) as [[f|r] p'] eqn:Hins; cbn; [discriminate|].
  apply insert_row_inv in Hins as (rows & Hw & -> & ->). cbn in Hw.
  call_cases; [discriminate|].
  intros [= <- <-]. exists rows. cbn. auto.
Qed.

Lemma pg_insert_quiet message w rows :
  quiet (pg_faults w) → has_char nul message = false →
  pg_table (pg w) = Some rows → (pg_seq (pg w) ≤ int4_max)%Z →
  Forall (λ r, (row_id r < pg_seq (pg w))%Z) rows →
  ∃ w1, pg_insert message w = (inr (inserted (Row (pg_seq (pg w)) message (now w))), w1)
        ∧ quiet (pg_faults w1).
Proof.
  intros Hq Hm Ht Hmax Hs.
  unfold pg_insert, try_except, with_connect, engine_connect, conn_execute, conn_commit,
    fetchone.
  do 2 quiet_step.
  rewrite (insert_row_fresh _ _ _ rows) by (cbn; auto). cbn.
  quiet_step. eexists. split; [reflexivity|]. cbn. auto using quiet_rest.
Qed.

(** C8.  After a successful [/pg/insert] of a message, a successful
    [/pg/read] returns at most ten rows in descending order of id, and the
    first of them is the row just inserted: it carries the message and its
    id is above every other. *)
Theorem insert_then_read message w r1 w1 r2 w2 :
  serial_ok (pg w) →
  pg_insert message w = (inr r1, w1) →
  pg_read w1 = (inr r2, w2) →
  ∃ id t older,
    r1 = inserted (Row id message t)
    ∧ r2 = read_response (Row id message t :: older)
    ∧ (length (Row id message t :: older) ≤ 10)%nat
    ∧ StronglySorted by_id_desc (Row id message t :: older)
    ∧ Forall (λ r, (row_id r < id)%Z) older.
Proof.
  intros Hok Hi Hr.
  apply pg_insert_inv in Hi as (rows & Ht & -> & Ht1 & _).
  apply pg_read_inv in Hr as (rows1 & Ht1' & -> & _).
  rewrite Ht1 in Ht1'. injection Ht1' as <-.
  specialize (Hok rows Ht).
  rewrite order_by_id_desc_newest by exact Hok.
  change (take 10 (?x :: ?l)) with (x :: take 9 l).
  exists (pg_seq (pg w)), (now w), (take 9 (order_by_id_desc rows)).
  split; [reflexivity|]. split; [reflexivity|].
  assert (Hall : Forall (λ r, (row_id r < pg_seq (pg w))%Z) (take 9 (order_by_id_desc rows))).
  { apply Forall_take. rewrite order_by_id_desc_perm. exact Hok. }
  split; [cbn; rewrite length_take; lia|]. split; [|exact Hall].
  constructor.
  - pose proof (order_by_id_desc_sorted rows) as Hs.
    rewrite <- (take_drop 9 (order_by_id_desc rows)) in Hs.
    eapply StronglySorted_app_1_l, Hs.
  - eapply Forall_impl; [exact Hall|]. unfold by_id_desc. cbn. intros; lia.
Qed.

(** ** Creating a database *)

Lemma run_cursor_db_exists ac n t p :
  run_cursor ac sql_db_exists [n] t p =
    if has_char nul n then (inl nul_in_literal, p)
    else (inr (if bool_decide (namein n ∈ pg_databases p) then [[PInt 1%Z]] else []), p).
Proof. reflexivity. Qed.

(** How the server reads the two interpolated statements, whatever the
    name: the operand is the quoted text, to be read as an identifier. *)
Lemma run_cursor_create ac n t p :
  run_cursor ac (sql_create_database n) [] t p =
    match database_operand (String dquote (n +:+ String dquote EmptyString)) with
    | Malformed => (inl syntax_error, p)
    | Beyond => elsewhere ac (sql_create_database n) p
    | Names i =>
        if negb ac then (inl in_transaction_block, p)
        else if bool_decide (namein i ∈ pg_databases p)
        then (inl (Fault ProgrammingError "database already exists"), p)
        else (inr [], set_catalog (<[namein i := false]> (pg_catalog p)) p)
    end.
Proof. reflexivity. Qed.

Lemma run_cursor_drop ac n t p :
  run_cursor ac (sql_drop_database n) [] t p =
    match database_operand (String dquote (n +:+ String dquote EmptyString)) with
    | Malformed => (inl syntax_error, p)
    | Beyond => elsewhere ac (sql_drop_database n) p
    | Names i =>
        if negb ac then (inl in_transaction_block, p)
        else match pg_catalog p !! namein i with
             | None => (inr [], p)
             | Some true => (inl cannot_drop, p)
             | Some false => (inr [], set_catalog (delete (namein i) (pg_catalog p)) p)
             end
    end.
Proof. reflexivity. Qed.

Lemma run_cursor_create_database n t p :
  plain_name n →
  run_cursor true (sql_create_database n) [] t p =
    if bool_decide (namein n ∈ pg_databases p)
    then (inl (Fault ProgrammingError "database already exists"), p)
    else (inr [], set_catalog (<[namein n := false]> (pg_catalog p)) p).
Proof.
  intros Hn. rewrite run_cursor_create, database_operand_plain by assumption. reflexivity.
Qed.

Lemma run_cursor_drop_database n t p :
  plain_name n →
  run_cursor true (sql_drop_database n) [] t p =
    match pg_catalog p !! namein n with
    | None => (inr [], p)
    | Some true => (inl cannot_drop, p)
    | Some false => (inr [], set_catalog (delete (namein n) (pg_catalog p)) p)
    end.
Proof.
  intros Hn. rewrite run_cursor_drop, database_operand_plain by assumption. reflexivity.
Qed.

Lemma pg_create_db_present db_name w :
  quiet (pg_faults w) → has_char nul db_name = false →
  namein db_name ∈ pg_databases (pg w) →
  pg_create_db db_name w =
    (inr (already_exists db_name),
     World (pg w) (redis w) (now w)
       (trace w ++ [Event RawConnection None; Event (SetIsolationLevel 0) None;
                    Event CursorOpen None; Event (CursorExecute sql_db_exists [db_name]) None;
                    Event CursorClose None; Event RawClose None])
       (rest (rest (pg_faults w))) (redis_faults w)).
Proof.
  intros Hq Hn Hin.
  unfold pg_create_db, try_except, engine_raw_connection, set_isolation_level, raw_cursor,
    cursor_execute, cursor_close, raw_close, cursor_fetchone.
  quiet_step. settle. quiet_step.
  rewrite run_cursor_db_exists, Hn. cbn. rewrite bool_decide_eq_true_2 by exact Hin.
  settle. unfold already_exists. f_equal. f_equal.
  all: try (rewrite <- !app_assoc; reflexivity).
  all: destruct (pg w); reflexivity.
Qed.

Lemma pg_create_db_absent db_name w :
  quiet (pg_faults w) → plain_name db_name →
  namein db_name ∉ pg_databases (pg w) →
  pg_create_db db_name w =
    (inr (created db_name),
     World (set_catalog (<[namein db_name := false]> (pg_catalog (pg w))) (pg w))
       (redis w) (now w)
       (trace w ++ [Event RawConnection None; Event (SetIsolationLevel 0) None;
                    Event CursorOpen None; Event (CursorExecute sql_db_exists [db_name]) None;
                    Event (CursorExecute (sql_create_database db_name) []) None;
                    Event CursorClose None; Event RawClose None])
       (rest (rest (rest (pg_faults w)))) (redis_faults w)).
Proof.
  intros Hq Hn Hin.
  unfold pg_create_db, try_except, engine_raw_connection, set_isolation_level, raw_cursor,
    cursor_execute, cursor_close, raw_close, cursor_fetchone.
  quiet_step. settle. quiet_step.
  rewrite run_cursor_db_exists. destruct Hn as (Hne & Hdq & Hnul). rewrite Hnul. cbn.
  rewrite bool_decide_eq_false_2 by exact Hin.
  settle. quiet_step.
  change (autocommit _) with true.
  rewrite run_cursor_create_database by (split; auto). cbn.
  rewrite bool_decide_eq_false_2 by exact Hin.
  settle. unfold created. f_equal. f_equal.
  all: try (rewrite <- !app_assoc; reflexivity).
  all: destruct (pg w); reflexivity.
Qed.

(** C4, amended.  For a name that is not empty and has no double quote and
    no NUL in it: [/pg/create-db] first looks the name up in the catalog; if
    the database is there it answers [already_exists] without sending a
    create statement and without changing the server; if not, it sends the
    create statement on a connection put in autocommit mode and answers
    [created]; so two calls in a row answer [created] then
    [already_exists], with no fault. *)
Theorem pg_create_db_plain_name db_name w :
  plain_name db_name → quiet (pg_faults w) →
  (namein db_name ∈ pg_databases (pg w) →
     ∃ w1, pg_create_db db_name w = (inr (already_exists db_name), w1)
           ∧ issued (calls_since w w1) =
               [RawConnection; SetIsolationLevel 0; CursorOpen;
                CursorExecute sql_db_exists [db_name]; CursorClose; RawClose]
           ∧ pg w1 = pg w ∧ redis w1 = redis w)
  ∧ (namein db_name ∉ pg_databases (pg w) →
     ∃ w1 w2,
       pg_create_db db_name w = (inr (created db_name), w1)
       ∧ issued (calls_since w w1) =
           [RawConnection; SetIsolationLevel 0; CursorOpen;
            CursorExecute sql_db_exists [db_name];
            CursorExecute (sql_create_database db_name) []; CursorClose; RawClose]
       ∧ faults_in (calls_since w w1) = []
       ∧ pg_databases (pg w1) = {[namein db_name]} ∪ pg_databases (pg w)
       ∧ pg_create_db db_name w1 = (inr (already_exists db_name), w2)
       ∧ faults_in (calls_since w1 w2) = []
       ∧ pg w2 = pg w1).
Proof.
  intros Hn Hq. split; intros Hin.
  - eexists. split; [apply pg_create_db_present; [assumption | apply Hn | assumption]|].
    split; [|split; reflexivity].
    erewrite calls_since_app by reflexivity. reflexivity.
  - eexists _, _. split; [apply pg_create_db_absent; assumption|].
    split; [erewrite calls_since_app by reflexivity; reflexivity|].
    split; [erewrite calls_since_app by reflexivity; reflexivity|].
    split; [apply dom_insert_L|].
    split; [apply pg_create_db_present; cbn; [auto using quiet_rest | apply Hn |]|].
    { unfold pg_databases. cbn. rewrite dom_insert_L. apply elem_of_union_l, elem_of_singleton.
      reflexivity. }
    split; [erewrite calls_since_app by reflexivity; reflexivity | reflexivity].
Qed.

(** ** Faults and what the handlers make of them *)

Lemma faults_in_app evs1 evs2 : faults_in (evs1 ++ evs2) = faults_in evs1 ++ faults_in evs2.
Proof. apply omap_app. Qed.

Lemma tracked_ret {A} (a : A) : tracked (mret a).
Proof. intros w. exists []. cbn. rewrite app_nil_r. auto. Qed.

Lemma tracked_raise {A} e : (∀ f, e ≠ Backend f) → tracked (@raise A e).
Proof.
  intros He w. exists []. cbn. rewrite app_nil_r. split; [reflexivity|].
  destruct e; [edestruct He|..]; reflexivity.
Qed.

Lemma tracked_bind {A B} (m : M A) (k : A → M B) :
  tracked m → (∀ a, tracked (k a)) → tracked (m ≫= k).
Proof.
  intros Hm Hk w. rewrite bind_eq. destruct (Hm w) as (evs & Ht & Hf).
  destruct (m w) as [[e|a] w1]; cbn in *.
  - exists evs. auto.
  - destruct (Hk a w1) as (evs' & Ht' & Hf'). exists (evs ++ evs').
    rewrite Ht', Ht, app_assoc, faults_in_app, Hf, Hf'. auto.
Qed.

Lemma tracked_pg_call {A} c (run : Z → pg_server → (fault + A) * pg_server) :
  tracked (pg_call c run).
Proof.
  intros w. unfold pg_call. destruct (pop (pg_faults w)) as [[f|] s].
  - eexists [_]. cbn. auto.
  - destruct (run (now w) (pg w)) as [[f|a] p']; eexists [_]; cbn; auto.
Qed.

Lemma tracked_redis_call {A} c (run : Z → redis_server → (fault + A) * redis_server) :
  tracked (redis_call c run).
Proof.
  intros w. unfold redis_call. destruct (pop (redis_faults w)) as [[f|] s].
  - eexists [_]. cbn. auto.
  - destruct (run (now w) (redis w)) as [[f|a] p']; eexists [_]; cbn; auto.
Qed.

Lemma tracked_pg_local c upd : tracked (pg_local c upd).
Proof. intros w. eexists [_]. cbn. auto. Qed.

Lemma tracked_time_time : tracked time_time.
Proof. intros w. exists []. cbn. rewrite app_nil_r. auto. Qed.

Lemma tracked_with_connect {A} (body : connection → M A) :
  (∀ conn, tracked (body conn)) → tracked (with_connect body).
Proof.
  intros Hb w. unfold with_connect.
  destruct (tracked_pg_call EngineConnect
              (λ _ p, (inr Connection, set_in_use (S (pg_in_use p)) (rollback_work p))) w)
    as (evs & Ht & Hf).
  fold engine_connect in Ht, Hf.
  destruct (engine_connect w) as [[e|conn] w1]; cbn in *.
  - exists evs. auto.
  - destruct (Hb conn w1) as (evs' & Ht' & Hf').
    destruct (body conn w1) as [r w2]. cbn in *.
    exists (evs ++ evs' ++ [Event ConnClose None]).
    rewrite Ht', Ht, !faults_in_app, Hf, Hf', <- !app_assoc. cbn. rewrite app_nil_r. auto.
Qed.

Lemma tracked_subscript r i : tracked (subscript r i).
Proof.
  unfold subscript. destruct r as [cols|]; [destruct (cols !! i)|].
  - apply tracked_ret.
  - apply tracked_raise. discriminate.
  - apply tracked_raise. discriminate.
Qed.

Lemma tracked_mapM {A B} (f : A → M B) l : (∀ a, tracked (f a)) → tracked (mapM f l).
Proof.
  intros Hf. induction l as [|a l IH]; [apply tracked_ret|].
  cbn. apply tracked_bind; [apply Hf|]. intros b.
  apply tracked_bind; [apply IH|]. intros k. apply tracked_ret.
Qed.

Lemma tracked_if {A} (b : bool) (m1 m2 : M A) :
  tracked m1 → tracked m2 → tracked (if b then m1 else m2).
Proof. destruct b; auto. Qed.

Create HintDb tracked.
#[local] Hint Resolve tracked_ret tracked_pg_call tracked_redis_call tracked_pg_local
  tracked_time_time tracked_subscript : tracked.

Ltac tracked_body :=
  repeat first
    [ apply tracked_with_connect; intros ?
    | apply tracked_bind; [|intros ?]
    | apply tracked_if
    | apply tracked_mapM; intros ?
    | solve [auto with tracked] ].

(** ** The combined test *)

Ltac close_trace :=
  erewrite calls_since_app by (cbn; rewrite <- ?app_assoc; reflexivity); cbn.

Ltac section_leaf :=
  eexists _, _; split; [reflexivity|]; split;
    [ eexists; split;
        [ cbn; rewrite <- ?app_assoc; reflexivity
        | first [ left; split; reflexivity
                | right; eexists; split; reflexivity ] ]
    | repeat split ].

Lemma test_all_pg_connect_spec d w :
  ∃ r w',
    test_all_pg_connect (Dict d) w = (inr (Dict (assoc_set "pg_connect" r d)), w')
    ∧ section_outcome w w' r
    ∧ pg_section_frame w w'
    ∧ pg_table (pg w') = pg_table (pg w) ∧ pg_seq (pg w') = pg_seq (pg w).
Proof.
  unfold test_all_pg_connect, try_except, with_connect, engine_connect, conn_execute.
  call_cases; [section_leaf|].
  call_cases; [section_leaf|].
  rewrite run_text_version. settle. section_leaf.
Qed.

Lemma test_all_pg_readwrite_spec d w :
  ∃ r w',
    test_all_pg_readwrite (Dict d) w = (inr (Dict (assoc_set "pg_readwrite" r d)), w')
    ∧ section_outcome w w' r
    ∧ pg_section_frame w w'.
Proof.
  unfold test_all_pg_readwrite, try_except, with_connect, engine_connect, conn_execute,
    conn_commit.
  call_cases; [section_leaf|].
  call_cases; [section_leaf|].
  rewrite run_text_create_table. settle.
  call_cases; [section_leaf|].
  rewrite run_text_insert.
  destruct (insert_row _ _ _) as [[f|r] p'] eqn:Hins; settle; [section_leaf|].
  call_cases; [section_leaf|].
  call_cases; [section_leaf|].
  rewrite run_text_count. cbn.
  destruct (pg_work p') as [rows|]; settle; section_leaf.
Qed.

Lemma test_all_redis_spec d w :
  ∃ r w',
    test_all_redis (Dict d) w = (inr (Dict (assoc_set "redis" r d)), w')
    ∧ section_outcome w w' r
    ∧ pg w' = pg w ∧ pg_faults w' = pg_faults w ∧ now w' = now w.
Proof.
  unfold test_all_redis, try_except, redis_ping, redis_set, redis_get.
  call_cases; [section_leaf|].
  call_cases; [section_leaf|].
  call_cases; section_leaf.
Qed.

(** A PostgreSQL that is down fails the first call of a section, and is
    still down for the next section. *)
Lemma test_all_pg_connect_down d w f :
  pg_faults w = down f →
  ∃ w', test_all_pg_connect (Dict d) w =
          (inr (Dict (assoc_set "pg_connect" (error_report (fault_msg f)) d)), w')
        ∧ pg_faults w' = down f.
Proof.
  intros H. unfold test_all_pg_connect, try_except, with_connect, engine_connect, pg_call.
  rewrite H. cbn. eexists. split; reflexivity.
Qed.

Lemma test_all_pg_readwrite_down d w f :
  pg_faults w = down f →
  ∃ w', test_all_pg_readwrite (Dict d) w =
          (inr (Dict (assoc_set "pg_readwrite" (error_report (fault_msg f)) d)), w').
Proof.
  intros H. unfold test_all_pg_readwrite, try_except, with_connect, engine_connect, pg_call.
  rewrite H. cbn. eexists. reflexivity.
Qed.

Lemma test_all_redis_down d w f :
  redis_faults w = down f →
  ∃ w', test_all_redis (Dict d) w =
          (inr (Dict (assoc_set "redis" (error_report (fault_msg f)) d)), w').
Proof.
  intros H. unfold test_all_redis, try_except, redis_ping.
  settle. unfold redis_call at 1. rewrite H. cbn. eexists. reflexivity.
Qed.

(** With a quiet PostgreSQL the first section connects, asks for the
    version, gives the connection back and reports the version. *)
Lemma test_all_pg_connect_quiet d w :
  quiet (pg_faults w) →
  ∃ w', test_all_pg_connect (Dict d) w =
          (inr (Dict (assoc_set "pg_connect"
                        (Dict [("status", str "ok"); ("version", str (pg_version (pg w)))]) d)),
           w')
        ∧ issued (calls_since w w') = version_check.
Proof.
  intros Hq.
  unfold test_all_pg_connect, try_except, with_connect, engine_connect, conn_execute.
  do 2 quiet_step. eexists. split; [reflexivity|]. close_trace. reflexivity.
Qed.

(** With a quiet PostgreSQL, ids that come from the sequence and a sequence
    that has a value left, the second section creates the table if need be,
    commits one more row and reports the count. *)
Lemma test_all_pg_readwrite_quiet d w :
  quiet (pg_faults w) → serial_ok (pg w) →
  (is_Some (pg_table (pg w)) → (pg_seq (pg w) ≤ int4_max)%Z) →
  has_char nul (str_float (now w)) = false →
  ∃ w', test_all_pg_readwrite (Dict d) w =
          (inr (Dict (assoc_set "pg_readwrite"
                  (Dict [("status", str "ok");
                         ("row_count",
                          int (Z.of_nat (S (length (default [] (pg_table (pg w)))))))]) d)),
           w')
        ∧ pg_table (pg w') =
            Some (default [] (pg_table (pg w)) ++
                  [Row (match pg_table (pg w) with Some _ => pg_seq (pg w) | None => 1%Z end)
                       ("test_all at " +:+ str_float (now w)) (now w)]).
Proof.
  intros Hq Hok Hmax Hnul.
  assert (Hm : has_char nul ("test_all at " +:+ str_float (now w)) = false) by exact Hnul.
  destruct w as [[v dbs tbl wk sq ot rk n] r t tr pf rf]. cbn in *.
  unfold test_all_pg_readwrite, try_except, with_connect, engine_connect, conn_execute,
    conn_commit.
  do 2 quiet_step. settle. quiet_step.
  destruct tbl as [rows|].
  - erewrite (insert_row_fresh _ _ _ rows);
      [| exact Hm | reflexivity | exact (Hmax (mk_is_Some _ _ eq_refl))
       | exact (Hok rows eq_refl) ].
    cbn. do 2 quiet_step. rewrite length_app, Nat.add_1_r. eexists. split; reflexivity.
  - erewrite (insert_row_fresh _ _ _ []);
      [| exact Hm | reflexivity | discriminate | constructor ].
    cbn. do 2 quiet_step. eexists. split; reflexivity.
Qed.

Lemma test_all_redis_quiet d w :
  quiet (redis_faults w) →
  ∃ w', test_all_redis (Dict d) w =
          (inr (Dict (assoc_set "redis"
                  (Dict [("status", str "ok"); ("ping", Val (PBool true));
                         ("read_back", str "testall_value")]) d)),
           w')
        ∧ redis_store (redis w') !! "testall_key" =
            Some ("testall_value", Some (now w + 60 * 1000)%Z).
Proof.
  intros Hq. unfold test_all_redis, try_except, redis_ping, redis_set, redis_get.
  do 3 quiet_step. rewrite lookup_insert_eq. unfold live. cbn [snd fst].
  replace (now w <=? now w + 60 * 1000)%Z with true by (symmetry; apply Z.leb_le; lia).
  eexists. split; [reflexivity|]. cbn. apply lookup_insert_eq.
Qed.

Lemma test_all_run w :
  ∃ r1 r2 r3 w1 w2 w3,
    test_all w = (inr (Dict [("pg_connect", r1); ("pg_readwrite", r2); ("redis", r3)]), w3)
    ∧ test_all_pg_connect (Dict []) w = (inr (Dict [("pg_connect", r1)]), w1)
    ∧ test_all_pg_readwrite (Dict [("pg_connect", r1)]) w1 =
        (inr (Dict [("pg_connect", r1); ("pg_readwrite", r2)]), w2)
    ∧ test_all_redis (Dict [("pg_connect", r1); ("pg_readwrite", r2)]) w2 =
        (inr (Dict [("pg_connect", r1); ("pg_readwrite", r2); ("redis", r3)]), w3)
    ∧ section_outcome w w1 r1 ∧ section_outcome w1 w2 r2 ∧ section_outcome w2 w3 r3
    ∧ pg_section_frame w w1 ∧ pg_section_frame w1 w2
    ∧ pg_table (pg w1) = pg_table (pg w) ∧ pg_seq (pg w1) = pg_seq (pg w).
Proof.
  destruct (test_all_pg_connect_spec [] w) as (r1 & w1 & H1 & R1 & F1 & T1 & S1).
  destruct (test_all_pg_readwrite_spec [("pg_connect", r1)] w1) as (r2 & w2 & H2 & R2 & F2).
  destruct (test_all_redis_spec [("pg_connect", r1); ("pg_readwrite", r2)] w2)
    as (r3 & w3 & H3 & R3 & _).
  cbn in H1, H2, H3.
  exists r1, r2, r3, w1, w2, w3.
  split; [|destruct F1 as (?&?&?), F2 as (?&?&?); repeat split; assumption].
  unfold test_all. rewrite bind_eq, H1, bind_eq, H2, bind_eq, H3. reflexivity.
Qed.

(** Every fault logged during [/test-all] was raised by a call of one of
    the three sections, and that section's report is the error with the
    fault's message. *)
Lemma test_all_reports_every_fault w f r1 r2 r3 w1 w2 w3 :
  section_outcome w w1 r1 → section_outcome w1 w2 r2 → section_outcome w2 w3 r3 →
  f ∈ faults_in (calls_since w w3) →
  (f ∈ faults_in (calls_since w w1) ∧ r1 = error_report (fault_msg f))
  ∨ (f ∈ faults_in (calls_since w1 w2) ∧ r2 = error_report (fault_msg f))
  ∨ (f ∈ faults_in (calls_since w2 w3) ∧ r3 = error_report (fault_msg f)).
Proof.
  intros (e1 & T1 & O1) (e2 & T2 & O2) (e3 & T3 & O3).
  rewrite (calls_since_app w w3 (e1 ++ e2 ++ e3))
    by (rewrite T3, T2, T1, <- !app_assoc; reflexivity).
  rewrite (calls_since_app _ _ _ T1), (calls_since_app _ _ _ T2), (calls_since_app _ _ _ T3).
  rewrite !faults_in_app, !elem_of_app.
  assert (R : ∀ e r, (faults_in e = [] ∧ field "status" r = Some (Val (PStr "ok")))
                     ∨ (∃ f', faults_in e = [f'] ∧ r = error_report (fault_msg f')) →
                     f ∈ faults_in e → r = error_report (fault_msg f)).
  { intros e r [[E _] | (f' & E & ->)] Hin; rewrite E in Hin.
    - inversion Hin.
    - apply list_elem_of_singleton in Hin as ->. reflexivity. }
  intros [Hin | [Hin | Hin]]; eauto 6.
Qed.

(** C6.  Whatever the two backends do, [/test-all] returns a dict with the
    three keys [pg_connect], [pg_readwrite] and [redis].  Each section makes
    its own calls and reports on them only: status [ok] when none failed,
    else status [error] with the failing call's message as detail.  With
    PostgreSQL down both of its sections report [error] with the fault's
    message, and with Redis down the third does.  A section whose backend
    lets its calls through reports [ok], whatever happened in the others:
    the first with the server's version, the second (given a table whose
    ids came from its sequence, and a sequence not at its end) with the row
    count after the row it has committed, the third with the value it has
    written and read back. *)
Theorem test_all_sections_isolated w :
  ∃ r1 r2 r3 w1 w2 w3,
    test_all w = (inr (Dict [("pg_connect", r1); ("pg_readwrite", r2); ("redis", r3)]), w3)
    ∧ test_all_pg_connect (Dict []) w = (inr (Dict [("pg_connect", r1)]), w1)
    ∧ test_all_pg_readwrite (Dict [("pg_connect", r1)]) w1 =
        (inr (Dict [("pg_connect", r1); ("pg_readwrite", r2)]), w2)
    ∧ test_all_redis (Dict [("pg_connect", r1); ("pg_readwrite", r2)]) w2 =
        (inr (Dict [("pg_connect", r1); ("pg_readwrite", r2); ("redis", r3)]), w3)
    ∧ section_outcome w w1 r1 ∧ section_outcome w1 w2 r2 ∧ section_outcome w2 w3 r3
    ∧ (∀ f, pg_faults w = down f →
         r1 = error_report (fault_msg f) ∧ r2 = error_report (fault_msg f))
    ∧ (∀ f, redis_faults w = down f → r3 = error_report (fault_msg f))
    ∧ (quiet (pg_faults w) →
         r1 = Dict [("status", Val (PStr "ok")); ("version", Val (PStr (pg_version (pg w))))]
         ∧ issued (calls_since w w1) = version_check)
    ∧ (quiet (pg_faults w1) → serial_ok (pg w) →
       (is_Some (pg_table (pg w)) → (pg_seq (pg w) ≤ int4_max)%Z) →
       has_char nul (str_float (now w)) = false →
         r2 = Dict [("status", Val (PStr "ok"));
                    ("row_count",
                     Val (PInt (Z.of_nat (S (length (default [] (pg_table (pg w))))))))]
         ∧ pg_table (pg w2) =
             Some (default [] (pg_table (pg w)) ++
                   [Row (match pg_table (pg w) with Some _ => pg_seq (pg w) | None => 1%Z end)
                        ("test_all at " +:+ str_float (now w)) (now w)]))
    ∧ (quiet (redis_faults w) →
         r3 = Dict [("status", Val (PStr "ok")); ("ping", Val (PBool true));
                    ("read_back", Val (PStr "testall_value"))]
         ∧ redis_store (redis w3) !! "testall_key" =
             Some ("testall_value", Some (now w + 60 * 1000)%Z)).
Proof.
  destruct (test_all_run w)
    as (r1 & r2 & r3 & w1 & w2 & w3 & H & H1 & H2 & H3 & R1 & R2 & R3
        & (F1 & F1' & F1'') & (F2 & F2' & F2'') & T1 & S1).
  exists r1, r2, r3, w1, w2, w3.
  do 7 (split; [assumption|]).
  split; [|split; [|split; [|split]]].
  - intros f Hd.
    destruct (test_all_pg_connect_down [] w f Hd) as (w1' & E1 & Hd1).
    rewrite H1 in E1. injection E1 as -> <-.
    destruct (test_all_pg_readwrite_down [("pg_connect", error_report (fault_msg f))] w1 f Hd1)
      as (w2' & E2).
    rewrite H2 in E2. cbn in E2. injection E2 as -> _. split; reflexivity.
  - intros f Hd.
    destruct (test_all_redis_down [("pg_connect", r1); ("pg_readwrite", r2)] w2 f) as (w' & E).
    + rewrite F2', F1'. exact Hd.
    + rewrite H3 in E. cbn in E. injection E as -> _. reflexivity.
  - intros Hq. destruct (test_all_pg_connect_quiet [] w Hq) as (w' & E & Hc).
    rewrite H1 in E. injection E as -> <-. split; [reflexivity | exact Hc].
  - intros Hq Hok Hmax Hnul.
    destruct (test_all_pg_readwrite_quiet [("pg_connect", r1)] w1 Hq) as (w' & E & Ht).
    + intros rows Hr. rewrite T1 in Hr. rewrite S1. exact (Hok rows Hr).
    + rewrite T1, S1. exact Hmax.
    + rewrite F1''. exact Hnul.
    + rewrite H2 in E. cbn in E. injection E as -> <-.
      split; [rewrite T1; reflexivity|]. rewrite Ht, T1, S1, F1''. reflexivity.
  - intros Hq.
    destruct (test_all_redis_quiet [("pg_connect", r1); ("pg_readwrite", r2)] w2) as (w' & E & Hk).
    + rewrite F2', F1'. exact Hq.
    + rewrite H3 in E. cbn in E. injection E as -> <-.
      split; [reflexivity|]. rewrite Hk, F2'', F1''. reflexivity.
Qed.

(** ** From faults to responses *)

Lemma calls_since_refl w : calls_since w w = [].
Proof. unfold calls_since. apply drop_all. Qed.

(** [try: body / except C as e: raise HTTPException(500, detail(e))], as
    the framework answers it. *)
Lemma served (body : M obj) (C : exn → bool) (detail : exn → string) w resp w' :
  tracked body →
  (let '(out, w1) := try_except body C (λ e, raise (HTTPException 500 (detail e))) w in
   (respond out, w1)) = (resp, w') →
  (∀ f, f ∈ faults_in (calls_since w w') → C (Backend f) = true →
     resp = server_error (detail (Backend f)))
  ∧ ((∀ e, C e = true) → ∀ e, resp ≠ Unhandled e).
Proof.
  intros Hb. destruct (Hb w) as (evs & Ht & Hf). unfold try_except.
  destruct (body w) as [[e|a] w1]; cbn in Ht, Hf.
  - destruct (C e) eqn:HC; cbn; intros [= <- <-].
    + rewrite (calls_since_app _ _ _ Ht). split; [|discriminate].
      intros f Hin _. destruct e as [f'| |]; rewrite Hf in Hin; try (by inversion Hin).
      apply list_elem_of_singleton in Hin as ->. reflexivity.
    + rewrite (calls_since_app _ _ _ Ht). split.
      * intros f Hin HCf. destruct e as [f'| |]; rewrite Hf in Hin; try (by inversion Hin).
        apply list_elem_of_singleton in Hin as ->. congruence.
      * intros Hall. rewrite Hall in HC. discriminate.
  - cbn. intros [= <- <-]. rewrite (calls_since_app _ _ _ Ht), Hf.
    split; [intros f Hin; inversion Hin | discriminate].
Qed.

(** C2, amended.  A fault raised by a backend call comes back as HTTP 500
    with the fault's message as detail from every handler but three: in
    [/pg/connect] (for an OperationalError) and [/redis/connect] the detail
    is the message after a fixed prefix, and [/test-all] answers 200 with
    the fault reported, as status [error] with the message as detail, under
    the key of the section whose call raised it.  Outside [/pg/connect] no
    exception leaves a handler unmapped, and dropping a protected database
    is the one 400. *)
Theorem faults_surface_as_500 req w resp w' :
  serve req w = (resp, w') →
  (∀ f, f ∈ faults_in (calls_since w w') →
     match req with
     | GET_root => False
     | GET_pg_connect =>
         fault_cls f = OperationalError →
         resp = server_error ("PG connection failed: " +:+ fault_msg f)
     | GET_redis_connect => resp = server_error ("Redis connection failed: " +:+ fault_msg f)
     | GET_test_all =>
         ∃ r1 r2 r3 w1 w2,
           resp = Response 200 (Dict [("pg_connect", r1); ("pg_readwrite", r2); ("redis", r3)])
           ∧ test_all_pg_connect (Dict []) w = (inr (Dict [("pg_connect", r1)]), w1)
           ∧ test_all_pg_readwrite (Dict [("pg_connect", r1)]) w1 =
               (inr (Dict [("pg_connect", r1); ("pg_readwrite", r2)]), w2)
           ∧ test_all_redis (Dict [("pg_connect", r1); ("pg_readwrite", r2)]) w2 =
               (inr (Dict [("pg_connect", r1); ("pg_readwrite", r2); ("redis", r3)]), w')
           ∧ ((f ∈ faults_in (calls_since w w1) ∧ r1 = error_report (fault_msg f))
              ∨ (f ∈ faults_in (calls_since w1 w2) ∧ r2 = error_report (fault_msg f))
              ∨ (f ∈ faults_in (calls_since w2 w') ∧ r3 = error_report (fault_msg f)))
     | _ => resp = server_error (fault_msg f)
     end)
  ∧ (req ≠ GET_pg_connect → ∀ e, resp ≠ Unhandled e)
  ∧ (∀ db_name, req = DELETE_pg_drop_db (Some db_name) → protected db_name = true →
       resp = bad_request "Cannot drop protected database" ∧ calls_since w w' = []).
Proof.
  intros Hs.
  assert (Hexc : ∀ e, is_Exception e = true) by reflexivity.
  destruct req; unfold serve, app in Hs.
  - (* / *)
    cbn in Hs. injection Hs as <- <-. rewrite calls_since_refl.
    split; [intros f Hin; inversion Hin|]. split; [discriminate | discriminate].
  - (* /pg/connect *)
    apply (served _ is_OperationalError (λ e, "PG connection failed: " +:+ str_exn e)) in Hs
      as [H1 _]; [|unfold conn_execute; tracked_body].
    split; [|split; [congruence | discriminate]].
    intros f Hin Hcls. apply H1; [exact Hin|]. destruct f; cbn in *; subst; reflexivity.
  - (* /pg/create-table *)
    apply (served _ is_Exception str_exn) in Hs as [H1 H2];
      [|unfold conn_execute, conn_commit; tracked_body].
    split; [intros f Hin; apply H1; auto|]. split; [auto | discriminate].
  - (* /pg/insert *)
    apply (served _ is_Exception str_exn) in Hs as [H1 H2];
      [|unfold conn_execute, conn_commit; tracked_body].
    split; [intros f Hin; apply H1; auto|]. split; [auto | discriminate].
  - (* /pg/read *)
    apply (served _ is_Exception str_exn) in Hs as [H1 H2];
      [|unfold conn_execute, read_row; tracked_body].
    split; [intros f Hin; apply H1; auto|]. split; [auto | discriminate].
  - (* /pg/create-db *)
    apply (served _ is_Exception str_exn) in Hs as [H1 H2];
      [|unfold engine_raw_connection, set_isolation_level, raw_cursor, cursor_execute,
          cursor_close, raw_close; tracked_body].
    split; [intros f Hin; apply H1; auto|]. split; [auto | discriminate].
  - (* /pg/drop-db *)
    unfold pg_drop_db in Hs.
    destruct (protected (default "test_newdb" db_name)) eqn:Hp.
    + cbn in Hs. injection Hs as <- <-. rewrite calls_since_refl.
      split; [intros f Hin; inversion Hin|]. split; [discriminate|]. auto.
    + apply (served _ is_Exception str_exn) in Hs as [H1 H2];
        [|unfold engine_raw_connection, set_isolation_level, raw_cursor, cursor_execute,
            cursor_close, raw_close; tracked_body].
      split; [intros f Hin; apply H1; auto|]. split; [auto|].
      intros n [= ->]. cbn in Hp. congruence.
  - (* /pg/tables *)
    apply (served _ is_Exception str_exn) in Hs as [H1 H2];
      [|unfold get_table_names; tracked_body].
    split; [intros f Hin; apply H1; auto|]. split; [auto | discriminate].
  - (* /redis/connect *)
    apply (served _ is_Exception (λ e, "Redis connection failed: " +:+ str_exn e)) in Hs
      as [H1 H2]; [|unfold redis_ping, redis_info_of; tracked_body].
    split; [intros f Hin; apply H1; auto|]. split; [auto | discriminate].
  - (* /redis/write *)
    apply (served _ is_Exception str_exn) in Hs as [H1 H2];
      [|unfold redis_set; tracked_body].
    split; [intros f Hin; apply H1; auto|]. split; [auto | discriminate].
  - (* /redis/read *)
    apply (served _ is_Exception str_exn) in Hs as [H1 H2];
      [|unfold redis_get, redis_ttl; tracked_body].
    split; [intros f Hin; apply H1; auto|]. split; [auto | discriminate].
  - (* /test-all *)
    destruct (test_all_run w)
      as (r1 & r2 & r3 & w1 & w2 & w3 & H & H1 & H2 & H3 & O1 & O2 & O3 & _).
    rewrite H in Hs. cbn in Hs. injection Hs as <- <-.
    split; [|split; [discriminate | discriminate]].
    intros f Hin. exists r1, r2, r3, w1, w2.
    split; [reflexivity|]. split; [exact H1|]. split; [exact H2|]. split; [exact H3|].
    exact (test_all_reports_every_fault w f r1 r2 r3 w1 w2 w3 O1 O2 O3 Hin).
Qed.

(** ** Connections taken and given back *)

Lemma gives_back_ret {A} (a : A) : gives_back (mret a).
Proof. intros w. reflexivity. Qed.

Lemma gives_back_raise {A} e : gives_back (@raise A e).
Proof. intros w. reflexivity. Qed.

Lemma gives_back_bind {A B} (m : M A) (k : A → M B) :
  gives_back m → (∀ a, gives_back (k a)) → gives_back (m ≫= k).
Proof.
  intros Hm Hk w. rewrite bind_eq. specialize (Hm w).
  destruct (m w) as [[e|a] w1]; cbn in *; [assumption|].
  rewrite Hk. assumption.
Qed.

Lemma gives_back_try_except {A} (body : M A) C handler :
  gives_back body → (∀ e, gives_back (handler e)) → gives_back (try_except body C handler).
Proof.
  intros Hb Hh w. unfold try_except. specialize (Hb w).
  destruct (body w) as [[e|a] w1]; cbn in *; [|assumption].
  destruct (C e); [rewrite Hh|]; assumption.
Qed.

Lemma gives_back_pg_call {A} c (run : Z → pg_server → (fault + A) * pg_server) :
  (∀ t p, pg_in_use (run t p).2 = pg_in_use p) → gives_back (pg_call c run).
Proof.
  intros Hr w. unfold pg_call. destruct (pop (pg_faults w)) as [[f|] s]; [reflexivity|].
  specialize (Hr (now w) (pg w)).
  destruct (run (now w) (pg w)) as [[f|a] p']; exact Hr.
Qed.

Lemma gives_back_redis_call {A} c (run : Z → redis_server → (fault + A) * redis_server) :
  gives_back (redis_call c run).
Proof.
  intros w. unfold redis_call. destruct (pop (redis_faults w)) as [[f|] s]; [reflexivity|].
  destruct (run (now w) (redis w)) as [[f|a] p']; reflexivity.
Qed.

Lemma run_text_in_use sql params t p : pg_in_use (run_text sql params t p).2 = pg_in_use p.
Proof.
  unfold run_text, insert_row, create_table_if_not_exists.
  repeat case_match; simplify_eq; reflexivity.
Qed.

(** [with engine.connect() as conn] gives the connection back however the
    body ends. *)
Lemma gives_back_with_connect {A} (body : connection → M A) :
  (∀ conn, gives_back (body conn)) → gives_back (with_connect body).
Proof.
  intros Hb w. unfold with_connect, engine_connect, pg_call.
  destruct (pop (pg_faults w)) as [[f|] s]; [reflexivity|]. cbn.
  specialize (Hb Connection).
  match goal with |- context [body Connection ?w1] => specialize (Hb w1) end.
  destruct (body Connection _) as [r w2]. cbn in *. rewrite Hb. reflexivity.
Qed.

Lemma gives_back_subscript r i : gives_back (subscript r i).
Proof. unfold subscript. repeat case_match; intros w; reflexivity. Qed.

Lemma gives_back_mapM {A B} (f : A → M B) l : (∀ a, gives_back (f a)) → gives_back (mapM f l).
Proof.
  intros Hf. induction l as [|a l IH]; [apply gives_back_ret|].
  cbn. apply gives_back_bind; [apply Hf|]. intros b.
  apply gives_back_bind; [apply IH|]. intros k. apply gives_back_ret.
Qed.

Lemma gives_back_conn_execute conn sql params : gives_back (conn_execute conn sql params).
Proof. apply gives_back_pg_call. intros. apply run_text_in_use. Qed.

Lemma gives_back_conn_commit conn : gives_back (conn_commit conn).
Proof. apply gives_back_pg_call. reflexivity. Qed.

Lemma gives_back_time_time : gives_back time_time.
Proof. intros w. reflexivity. Qed.

Ltac gives_back_body :=
  repeat first
    [ apply gives_back_try_except; [|intros ?]
    | apply gives_back_with_connect; intros ?
    | apply gives_back_bind; [|intros ?]
    | apply gives_back_mapM; intros ?
    | apply gives_back_ret
    | apply gives_back_raise
    | apply gives_back_conn_execute
    | apply gives_back_conn_commit
    | apply gives_back_redis_call
    | apply gives_back_subscript
    | apply gives_back_time_time
    | apply gives_back_pg_call; reflexivity ].

(** Every handler built on [with engine.connect()] releases its connection
    on every path, and so does every handler that takes none. *)
Lemma scoped_handlers_give_back req :
  match req with
  | POST_pg_create_db _ | DELETE_pg_drop_db _ => True
  | _ => gives_back (app req)
  end.
Proof.
  destruct req; try exact I; unfold app.
  - apply gives_back_ret.
  - unfold pg_connect. gives_back_body.
  - unfold pg_create_table. gives_back_body.
  - unfold pg_insert. gives_back_body.
  - unfold pg_read, read_row. gives_back_body.
  - unfold pg_tables, get_table_names. gives_back_body.
  - unfold redis_connect, redis_ping, redis_info_of. gives_back_body.
  - unfold redis_write, redis_set. gives_back_body.
  - unfold redis_read, redis_get, redis_ttl. gives_back_body.
  - unfold test_all, test_all_pg_connect, test_all_pg_readwrite, test_all_redis,
      redis_ping, redis_set, redis_get.
    gives_back_body.
Qed.

Lemma elsewhere_in_use ac sql p : pg_in_use (elsewhere ac sql p).2 = pg_in_use p.
Proof. unfold elsewhere. destruct (other_statement _ _ _) as [[f|] c]; reflexivity. Qed.

Lemma run_cursor_in_use ac sql params t p :
  pg_in_use (run_cursor ac sql params t p).2 = pg_in_use p.
Proof.
  unfold run_cursor. repeat case_match; simplify_eq; try reflexivity; apply elsewhere_in_use.
Qed.

Ltac not_among :=
  rewrite ?not_elem_of_cons; repeat split; try discriminate; apply not_elem_of_nil.

Ltac leak_leaf :=
  intros [= <- <-]; erewrite calls_since_app by (cbn; rewrite <- ?app_assoc; reflexivity);
  cbn; intros Hin;
  first [ apply list_elem_of_singleton in Hin; discriminate
        | split; [not_among | split; [not_among | congruence]] ].

Ltac cursor_cases :=
  match goal with
  | |- context [run_cursor ?ac ?sql ?params ?t ?p] =>
      let H := fresh "Hrun" in
      let U := fresh "Huse" in
      pose proof (run_cursor_in_use ac sql params t p) as U;
      destruct (run_cursor ac sql params t p) as [[?f|?r] ?p'] eqn:H;
      cbn in U; settle
  end.

(** C3, at the fault path.  When [/pg/create-db] or [/pg/drop-db] has got
    its raw connection and a later call raises, the handler answers with
    the error and closes neither the cursor nor the connection: the pool
    has one more connection out than before. *)
Theorem raw_connection_left_open_on_fault db_name w e w' :
  pg_create_db db_name w = (inl e, w')
  ∨ (protected db_name = false ∧ pg_drop_db db_name w = (inl e, w')) →
  Event RawConnection None ∈ calls_since w w' →
  (RawClose ∉ issued (calls_since w w'))
  ∧ (CursorClose ∉ issued (calls_since w w'))
  ∧ pg_in_use (pg w') = S (pg_in_use (pg w)).
Proof.
  intros [H | [Hp H]]; revert H.
  - unfold pg_create_db, try_except, engine_raw_connection, set_isolation_level, raw_cursor,
      cursor_execute, cursor_close, raw_close, cursor_fetchone.
    call_cases; [leak_leaf|].
    call_cases; [leak_leaf|].
    cursor_cases; [leak_leaf|].
    destruct (truthy (head r)); settle; [discriminate|].
    call_cases; [leak_leaf|].
    cursor_cases; [leak_leaf | discriminate].
  - unfold pg_drop_db. rewrite Hp.
    unfold try_except, engine_raw_connection, set_isolation_level, raw_cursor,
      cursor_execute, cursor_close, raw_close.
    call_cases; [leak_leaf|].
    call_cases; [leak_leaf|].
    cursor_cases; [leak_leaf | discriminate].
Qed.

Ltac closed_leaf :=
  split; [rewrite !elem_of_cons; auto 10 | split; [rewrite !elem_of_cons; auto 10 |]];
  repeat match goal with H : pg_in_use _ = _ |- _ => rewrite H; clear H end; reflexivity.

(** X3.  When [/pg/create-db] or [/pg/drop-db] returns normally, it has
    closed its cursor and its raw connection, and the pool's count is what
    it was. *)
Lemma raw_connection_closed_on_return db_name w r w' :
  pg_create_db db_name w = (inr r, w') ∨ pg_drop_db db_name w = (inr r, w') →
  RawClose ∈ issued (calls_since w w')
  ∧ CursorClose ∈ issued (calls_since w w')
  ∧ pg_in_use (pg w') = pg_in_use (pg w).
Proof.
  intros [H | H]; revert H.
  - unfold pg_create_db, try_except, engine_raw_connection, set_isolation_level, raw_cursor,
      cursor_execute, cursor_close, raw_close, cursor_fetchone.
    call_cases; [discriminate|].
    call_cases; [discriminate|].
    cursor_cases; [discriminate|].
    destruct (truthy (head r0)); settle.
    + intros [= <- <-]. cbn. erewrite calls_since_app by (cbn; rewrite <- ?app_assoc; reflexivity).
      cbn. closed_leaf.
    + call_cases; [discriminate|].
      cursor_cases; [discriminate|].
      intros [= <- <-]. cbn. erewrite calls_since_app by (cbn; rewrite <- ?app_assoc; reflexivity).
      cbn. closed_leaf.
  - unfold pg_drop_db. destruct (protected db_name); [discriminate|].
    unfold try_except, engine_raw_connection, set_isolation_level, raw_cursor,
      cursor_execute, cursor_close, raw_close.
    call_cases; [discriminate|].
    call_cases; [discriminate|].
    cursor_cases; [discriminate|].
    intros [= <- <-]. cbn. erewrite calls_since_app by (cbn; rewrite <- ?app_assoc; reflexivity).
    cbn. closed_leaf.
Qed.

(** C5, amended.  [/pg/read] returns at most ten rows, those with the
    largest ids, in descending order of id, with [count] the number of rows
    returned; in each row the id is an integer, the message is text and
    created_at is the text [str] makes of the timestamp. *)
Theorem pg_read_latest_rows w rows :
  quiet (pg_faults w) → pg_table (pg w) = Some rows →
  ∃ shown w',
    pg_read w = (inr (read_response shown), w')
    ∧ (length shown ≤ 10)%nat
    ∧ latest rows shown
    ∧ (∀ r, r ∈ shown →
         field "id" (row_dict r) = Some (int (row_id r))
         ∧ field "message" (row_dict r) = Some (str (row_message r))
         ∧ field "created_at" (row_dict r) = Some (str (str_datetime (row_created_at r))))
    ∧ pg_table (pg w') = Some rows.
Proof.
  intros Hq Ht. eexists _, _. split; [apply pg_read_quiet; eassumption|].
  split; [rewrite length_take; lia|]. split; [apply latest_take|].
  split; [intros r _; repeat split|].
  cbn. destruct (pg w); cbn in *; assumption.
Qed.

(** ** Ids come from the sequence: an invariant of the service *)

Section Keeps.
Variable I : pg_server → Prop.

Lemma keeps_ret {A} (a : A) : keeps I (mret a).
Proof. intros w H. exact H. Qed.

Lemma keeps_raise {A} e : keeps I (@raise A e).
Proof. intros w H. exact H. Qed.

Lemma keeps_bind {A B} (m : M A) (k : A → M B) :
  keeps I m → (∀ a, keeps I (k a)) → keeps I (m ≫= k).
Proof.
  intros Hm Hk w H. rewrite bind_eq. specialize (Hm w H).
  destruct (m w) as [[e|a] w1]; cbn in *; [assumption|]. apply Hk, Hm.
Qed.

Lemma keeps_try_except {A} (body : M A) C handler :
  keeps I body → (∀ e, keeps I (handler e)) → keeps I (try_except body C handler).
Proof.
  intros Hb Hh w H. unfold try_except. specialize (Hb w H).
  destruct (body w) as [[e|a] w1]; cbn in *; [|assumption].
  destruct (C e); [apply Hh|]; assumption.
Qed.

Lemma keeps_pg_call {A} c (run : Z → pg_server → (fault + A) * pg_server) :
  (∀ t p, I p → I (run t p).2) → keeps I (pg_call c run).
Proof.
  intros Hr w H. unfold pg_call. destruct (pop (pg_faults w)) as [[f|] s]; [exact H|].
  specialize (Hr (now w) (pg w) H).
  destruct (run (now w) (pg w)) as [[f|a] p']; exact Hr.
Qed.

Lemma keeps_pg_local c upd : (∀ p, I p → I (upd p)) → keeps I (pg_local c upd).
Proof. intros Hu w H. apply Hu, H. Qed.

Lemma keeps_redis_call {A} c (run : Z → redis_server → (fault + A) * redis_server) :
  keeps I (redis_call c run).
Proof.
  intros w H. unfold redis_call. destruct (pop (redis_faults w)) as [[f|] s]; [exact H|].
  destruct (run (now w) (redis w)) as [[f|a] p']; exact H.
Qed.

Lemma keeps_subscript r i : keeps I (subscript r i).
Proof. unfold subscript. repeat case_match; intros w Hw; exact Hw. Qed.

Lemma keeps_mapM {A B} (f : A → M B) l : (∀ a, keeps I (f a)) → keeps I (mapM f l).
Proof.
  intros Hf. induction l as [|a l IH]; [apply keeps_ret|].
  cbn. apply keeps_bind; [apply Hf|]. intros b.
  apply keeps_bind; [apply IH|]. intros k. apply keeps_ret.
Qed.

Lemma keeps_time_time : keeps I time_time.
Proof. intros w H. exact H. Qed.

Lemma keeps_if {A} (b : bool) (m1 m2 : M A) :
  keeps I m1 → keeps I m2 → keeps I (if b then m1 else m2).
Proof. destruct b; auto. Qed.
End Keeps.

Lemma insert_row_ids_below t m p : ids_below p → ids_below (insert_row t m p).2.
Proof.
  intros H. pose proof H as (Ht & Hw & Hn). unfold insert_row.
  destruct (has_char nul m); [exact H|].
  destruct (pg_work p) as [rows|] eqn:Ew; [|exact H].
  assert (Hup : ∀ l, Forall (λ r, (row_id r < pg_seq p)%Z) l →
                     Forall (λ r, (row_id r < pg_seq p + 1)%Z) l).
  { intros l Hl. eapply Forall_impl; [exact Hl|]. cbn. intros; lia. }
  destruct (int4_max <? pg_seq p)%Z; [exact H|].
  destruct (existsb _ rows); cbn; (split; [|split]); cbn.
  - intros l Hl. apply Hup, Ht, Hl.
  - intros l Hl. rewrite Ew in Hl. injection Hl as <-. apply Hup, Hw. reflexivity.
  - rewrite Ew. discriminate.
  - intros l Hl. apply Hup, Ht, Hl.
  - intros l [= <-]. apply Forall_app. split; [apply Hup, Hw; reflexivity|].
    repeat constructor. cbn. lia.
  - discriminate.
Qed.

Lemma run_text_ids_below sql params t p : ids_below p → ids_below (run_text sql params t p).2.
Proof.
  intros H. unfold run_text.
  destruct (String.eqb sql sql_version); [exact H|].
  destruct (String.eqb sql sql_create_table).
  { change (ids_below (create_table_if_not_exists p)).
    unfold create_table_if_not_exists. pose proof H as (Ht & Hw & Hn).
    destruct (pg_work p) eqn:Ew; [exact H|].
    split; [|split]; cbn.
    - intros l Hl. cbn in Hl. rewrite (Hn eq_refl) in Hl. discriminate.
    - intros l [= <-]. constructor.
    - discriminate. }
  destruct (String.eqb sql sql_insert_returning).
  { destruct (assoc_get "msg" params) as [m|]; [|exact H].
    pose proof (insert_row_ids_below t m p H) as Hi.
    destruct (insert_row t m p) as [[f|r] p']; exact Hi. }
  destruct (String.eqb sql sql_insert).
  { destruct (assoc_get "msg" params) as [m|]; [|exact H].
    pose proof (insert_row_ids_below t m p H) as Hi.
    destruct (insert_row t m p) as [[f|r] p']; exact Hi. }
  destruct (String.eqb sql sql_read); [destruct (pg_work p); exact H|].
  destruct (String.eqb sql sql_count); [destruct (pg_work p); exact H|].
  exact H.
Qed.

Lemma keeps_conn_execute conn sql params : keeps ids_below (conn_execute conn sql params).
Proof. apply keeps_pg_call. intros. apply run_text_ids_below. assumption. Qed.

Lemma keeps_conn_commit conn : keeps ids_below (conn_commit conn).
Proof.
  apply keeps_pg_call. intros _ p (Ht & Hw & Hn). cbn. split; [|split]; cbn; auto.
Qed.

(** Around a [with] block the committed table is all that matters. *)
Lemma with_connect_serial_ok {A} (body : connection → M A) :
  (∀ conn, keeps ids_below (body conn)) → keeps serial_ok (with_connect body).
Proof.
  intros Hb w H. unfold with_connect, engine_connect, pg_call.
  destruct (pop (pg_faults w)) as [[f|] s]; [exact H|]. cbn.
  specialize (Hb Connection).
  match goal with |- context [body Connection ?w1] => specialize (Hb w1) end.
  destruct (body Connection _) as [r w2]. cbn in *.
  destruct Hb as (Ht & _).
  - split; [|split]; cbn; auto.
  - intros rows Hr. cbn in Hr. apply Ht, Hr.
Qed.

Lemma elsewhere_serial_ok ac sql p : serial_ok p → serial_ok (elsewhere ac sql p).2.
Proof. intros H. unfold elsewhere. destruct (other_statement _ _ _) as [[f|] c]; exact H. Qed.

Lemma run_cursor_serial_ok ac sql params t p :
  serial_ok p → serial_ok (run_cursor ac sql params t p).2.
Proof.
  intros H. unfold run_cursor.
  repeat case_match; simplify_eq; try exact H; apply elsewhere_serial_ok, H.
Qed.

Ltac keeps_body :=
  repeat first
    [ apply keeps_try_except; [|intros ?]
    | apply with_connect_serial_ok; intros ?
    | apply keeps_bind; [|intros ?]
    | apply keeps_if
    | apply keeps_mapM; intros ?
    | apply keeps_ret
    | apply keeps_raise
    | apply keeps_conn_execute
    | apply keeps_conn_commit
    | apply keeps_redis_call
    | apply keeps_subscript
    | apply keeps_time_time
    | apply keeps_pg_local; intros ? ?; assumption
    | apply keeps_pg_call; intros ? ? ?; first [assumption | apply run_cursor_serial_ok; assumption] ].

(** X4.  Whatever is asked and whatever fails, the ids of the committed
    rows stay below the sequence's next value: no request writes an id of
    its own. *)
Lemma serve_keeps_serial_ok req w : serial_ok (pg w) → serial_ok (pg (serve req w).2).
Proof.
  intros H. unfold serve.
  assert (Hk : keeps serial_ok (app req)); [|specialize (Hk w H); destruct (app req w); exact Hk].
  destruct req; unfold app.
  - apply keeps_ret.
  - unfold pg_connect. keeps_body.
  - unfold pg_create_table. keeps_body.
  - unfold pg_insert. keeps_body.
  - unfold pg_read, read_row. keeps_body.
  - unfold pg_create_db, engine_raw_connection, set_isolation_level, raw_cursor,
      cursor_execute, cursor_close, raw_close. keeps_body.
  - unfold pg_drop_db, engine_raw_connection, set_isolation_level, raw_cursor,
      cursor_execute, cursor_close, raw_close. keeps_body.
  - unfold pg_tables, get_table_names. keeps_body.
  - unfold redis_connect, redis_ping, redis_info_of. keeps_body.
  - unfold redis_write, redis_set. keeps_body.
  - unfold redis_read, redis_get, redis_ttl. keeps_body.
  - unfold test_all, test_all_pg_connect, test_all_pg_readwrite, test_all_redis,
      redis_ping, redis_set, redis_get.
    keeps_body.
Qed.

Lemma serial_ok_without_table p : pg_table p = None → serial_ok p.
Proof. intros H rows Hr. congruence. Qed.


(** * Further properties of the handlers *)

(** ** What the requests leave behind *)

Ltac same_leaf := cbn; intros [= <- <-]; cbn; auto.

(** X1.  The requests that only read ([/], [/pg/connect], [/pg/read],
    [/pg/tables], [/redis/connect], [/redis/read]) leave the databases, the
    table, the sequence and the cache as they found them, whether their
    calls fail or not. *)
Theorem reading_requests_change_nothing req w resp w' :
  reads_only req = true →
  serve req w = (resp, w') →
  pg_data (pg w') = pg_data (pg w) ∧ redis w' = redis w ∧ now w' = now w.
Proof.
  destruct req; try discriminate; intros _; unfold serve, app.
  - same_leaf.
  - unfold pg_connect, try_except, with_connect, engine_connect, conn_execute.
    call_cases; [destruct f as [[] msg]; same_leaf|].
    call_cases; [destruct f as [[] msg]; same_leaf|].
    rewrite run_text_version. settle. same_leaf.
  - unfold pg_read, try_except, with_connect, engine_connect, conn_execute, fetchall.
    call_cases; [same_leaf|].
    call_cases; [same_leaf|].
    rewrite run_text_read. cbn.
    destruct (pg_table (pg w)) as [rows|]; cbn; [|same_leaf].
    rewrite bind_eq, mapM_read_row. cbn. same_leaf.
  - unfold pg_tables, try_except, get_table_names.
    call_cases; same_leaf.
  - unfold redis_connect, try_except, redis_ping, redis_info_of.
    call_cases; [same_leaf|].
    call_cases; same_leaf.
  - unfold redis_read, try_except, redis_get, redis_ttl.
    call_cases; [same_leaf|].
    call_cases; same_leaf.
Qed.

(** X2.  Every request other than [/pg/create-db] and [/pg/drop-db] leaves
    as many connections out of the pool as it found, on every path: the
    [with engine.connect()] blocks give theirs back also when a call
    raises. *)
Theorem scoped_requests_give_the_connection_back req w :
  takes_raw_connection req = false →
  pg_in_use (pg (serve req w).2) = pg_in_use (pg w).
Proof.
  intros Hr. pose proof (scoped_handlers_give_back req) as H.
  unfold serve. destruct req; try discriminate; specialize (H w);
    destruct (app _ w); exact H.
Qed.

Ltac commit_leaf :=
  intros [= <- <-]; erewrite calls_since_app by (cbn; rewrite <- ?app_assoc; reflexivity);
  cbn; split;
    [ split;
        [ intros Hin;
          first [ eexists; reflexivity
                | exfalso;
                  repeat (apply elem_of_cons in Hin as [Hin|Hin]; [discriminate Hin|]);
                  inversion Hin ]
        | intros [b Hb]; first [ discriminate Hb | rewrite !elem_of_cons; auto 10 ] ]
    | intros e; first [ discriminate | intros [= <-]; eexists; reflexivity ] ].

(** X5.  [/pg/insert] answers [inserted] exactly when its commit has
    returned: an answer with an error, always a 500, means that no commit
    of the request went through, and no call can fail once it has. *)
Theorem insert_answers_by_its_commit message w out w' :
  pg_insert message w = (out, w') →
  (Event ConnCommit None ∈ calls_since w w' ↔ ∃ body, out = inr body)
  ∧ (∀ e, out = inl e → ∃ detail, e = HTTPException 500 detail).
Proof.
  unfold pg_insert, try_except, with_connect, engine_connect, conn_execute, conn_commit,
    fetchone.
  call_cases; [commit_leaf|].
  call_cases; [commit_leaf|].
  rewrite run_text_insert_returning.
  destruct (insert_row _ _ _) as [[f|r] p'] eqn:Hins; cbn; [commit_leaf|].
  call_cases; commit_leaf.
Qed.

(** X6.  [/pg/create-table] answers ok exactly when its commit has
    returned; an answer with an error is a 500. *)
Theorem create_table_answers_by_its_commit w out w' :
  pg_create_table w = (out, w') →
  (Event ConnCommit None ∈ calls_since w w' ↔ ∃ body, out = inr body)
  ∧ (∀ e, out = inl e → ∃ detail, e = HTTPException 500 detail).
Proof.
  unfold pg_create_table, try_except, with_connect, engine_connect, conn_execute, conn_commit.
  call_cases; [commit_leaf|].
  call_cases; [commit_leaf|].
  rewrite run_text_create_table. settle.
  call_cases; commit_leaf.
Qed.

(** ** What an answer tells about the calls behind it *)

Lemma served_outcome (body : M obj) (detail : exn → string) w resp w' :
  tracked body →
  (let '(out, w1) := try_except body is_Exception (λ e, raise (HTTPException 500 (detail e))) w in
   (respond out, w1)) = (resp, w') →
  (∃ b, resp = Response 200 b ∧ faults_in (calls_since w w') = [])
  ∨ (∃ d, resp = server_error d).
Proof.
  intros Hb. destruct (Hb w) as (evs & Ht & Hf). unfold try_except.
  destruct (body w) as [[e|a] w1]; cbn in Ht, Hf; cbn; intros [= <- <-].
  - right. eauto.
  - left. rewrite (calls_since_app _ _ _ Ht), Hf. eauto.
Qed.

Ltac kind_200 := left; eexists; split; [reflexivity|]; intros _.
Ltac kind_500 := right; left; eexists; split; [reflexivity|]; split; discriminate.

Ltac kind_uncaught :=
  right; right; right; eexists; split; [reflexivity|]; split; [reflexivity|];
  split; [discriminate | close_trace; reflexivity].

Ltac by_served H lem :=
  apply (served_outcome _ lem) in H as [(b & -> & Hf) | (d & ->)];
  [ kind_200; exact Hf | kind_500 | ].

Lemma pg_connect_answer w resp w' :
  serve GET_pg_connect w = (resp, w') → answer_kind GET_pg_connect w w' resp.
Proof.
  unfold serve, app, pg_connect, try_except, with_connect, engine_connect, conn_execute.
  call_cases.
  { destruct f as [[] msg]; cbn; intros [= <- <-]; first [kind_500 | kind_uncaught]. }
  call_cases.
  { destruct f as [[] msg]; cbn; intros [= <- <-]; first [kind_500 | kind_uncaught]. }
  rewrite run_text_version. settle. intros [= <- <-]. kind_200. close_trace. reflexivity.
Qed.

Lemma every_answer req w resp w' : serve req w = (resp, w') → answer_kind req w w' resp.
Proof.
  intros Hs. destruct req; try (apply pg_connect_answer; exact Hs); unfold serve, app in Hs.
  - cbn in Hs. injection Hs as <- <-. kind_200. apply (f_equal faults_in (calls_since_refl w)).
  - by_served Hs str_exn. unfold conn_execute, conn_commit; tracked_body.
  - by_served Hs str_exn. unfold conn_execute, conn_commit; tracked_body.
  - by_served Hs str_exn. unfold conn_execute, read_row; tracked_body.
  - by_served Hs str_exn.
    unfold engine_raw_connection, set_isolation_level, raw_cursor, cursor_execute,
      cursor_close, raw_close; tracked_body.
  - unfold pg_drop_db in Hs.
    destruct (protected (default "test_newdb" db_name)) eqn:Hp.
    + cbn in Hs. injection Hs as <- <-. right; right; left.
      split; [reflexivity|]. split; [apply calls_since_refl|].
      destruct db_name as [n|]; [eauto | discriminate Hp].
    + by_served Hs str_exn.
      unfold engine_raw_connection, set_isolation_level, raw_cursor, cursor_execute,
        cursor_close, raw_close; tracked_body.
  - by_served Hs str_exn. unfold get_table_names; tracked_body.
  - by_served Hs (λ e, "Redis connection failed: " +:+ str_exn e).
    unfold redis_ping, redis_info_of; tracked_body.
  - by_served Hs str_exn. unfold redis_set; tracked_body.
  - by_served Hs str_exn. unfold redis_get, redis_ttl; tracked_body.
  - destruct (test_all_run w) as (r1 & r2 & r3 & w1 & w2 & w3 & H & _).
    rewrite H in Hs. cbn in Hs. injection Hs as <- <-.
    left. eexists. split; [reflexivity|]. intros Hn. contradiction.
Qed.

(** X7.  Every answer is a 200, a 500 carrying a detail, or a 400; the 400
    comes only from [/pg/drop-db] with a protected name, and the one
    exception that can leave a handler uncaught is a fault of [/pg/connect]
    that is not an OperationalError. *)
Theorem answers_are_200_400_500_or_uncaught req w resp w' :
  serve req w = (resp, w') →
  match resp with
  | Response code body =>
      code = 200%Z
      ∨ (code = 500%Z ∧ ∃ detail, body = Dict [("detail", str detail)])
      ∨ (code = 400%Z ∧ ∃ db_name, req = DELETE_pg_drop_db (Some db_name)
                                   ∧ protected db_name = true)
  | Unhandled e =>
      req = GET_pg_connect
      ∧ ∃ f, e = Backend f ∧ fault_cls f ≠ OperationalError
             ∧ faults_in (calls_since w w') = [f]
  end.
Proof.
  intros Hs.
  destruct (every_answer _ _ _ _ Hs)
    as [(b & -> & _) | [(d & -> & _) | [(-> & _ & n & Hn) | (f & -> & Hr & Hc & Hf)]]].
  - left. reflexivity.
  - right; left. eauto.
  - right; right. eauto.
  - eauto.
Qed.

(** X8.  Outside [/test-all], a 200 means that no call to a backend failed
    during the request: no handler swallows a fault. *)
Theorem a_200_means_no_call_failed req w body w' :
  req ≠ GET_test_all →
  serve req w = (Response 200 body, w') →
  faults_in (calls_since w w') = [].
Proof.
  intros Hr Hs.
  destruct (every_answer _ _ _ _ Hs)
    as [(b & _ & Hf) | [(d & [=] & _) | [([=] & _) | (f & [=] & _)]]].
  exact (Hf Hr).
Qed.

(** ** More of the cache *)

Lemma redis_read_quiet key w :
  quiet (redis_faults w) →
  redis_read key w =
    (inr (read_answer key
            match redis_store (redis w) !! key with
            | Some e => if live (now w) e then PStr e.1 else PNone
            | None => PNone
            end
            match redis_store (redis w) !! key with
            | Some (_, Some expiry) =>
                if (now w <=? expiry)%Z then ((expiry - now w + 500) / 1000)%Z else (-2)%Z
            | Some (_, None) => (-1)%Z
            | None => (-2)%Z
            end),
     World (pg w) (redis w) (now w)
           (trace w ++ [Event (RedisGet key) None; Event (RedisTtl key) None])
           (pg_faults w) (rest (rest (redis_faults w)))).
Proof.
  intros Hq. unfold redis_read, try_except, redis_get, redis_ttl.
  do 2 quiet_step. unfold read_answer. f_equal. f_equal.
  all: try (rewrite <- !app_assoc; reflexivity).
  all: destruct (redis w); reflexivity.
Qed.

Lemma redis_write_quiet key value w :
  quiet (redis_faults w) →
  redis_write key value w =
    (inr (Dict [("status", str "written"); ("key", str key); ("value", str value);
                ("ttl", int 300)]),
     World (pg w)
           (set_store (<[key := (value, Some (now w + 300 * 1000)%Z)]> (redis_store (redis w)))
                      (redis w))
           (now w) (trace w ++ [Event (RedisSet key value 300) None])
           (pg_faults w) (rest (redis_faults w))).
Proof.
  intros Hq. unfold redis_write, try_except, redis_set. quiet_step. reflexivity.
Qed.

(** X10.  [/redis/read] of a key that is not in the cache is not an error:
    it answers ok with value None and ttl -2, and changes nothing. *)
Theorem redis_read_of_a_key_not_there key w :
  quiet (redis_faults w) →
  redis_store (redis w) !! key = None →
  ∃ w', redis_read key w = (inr (key_missing key), w') ∧ redis w' = redis w.
Proof.
  intros Hq Hk. rewrite redis_read_quiet by exact Hq. rewrite Hk.
  eexists. split; reflexivity.
Qed.

(** X11.  More than three hundred seconds after [/redis/write], a
    [/redis/read] of the key answers as for a key that was never written. *)
Theorem redis_entry_expires key value w dt :
  quiet (redis_faults w) → (300 * 1000 < dt)%Z →
  ∃ w1 w2,
    redis_write key value w = (inr (Dict [("status", str "written"); ("key", str key);
                                          ("value", str value); ("ttl", int 300)]), w1)
    ∧ redis_read key (elapse dt w1) = (inr (key_missing key), w2).
Proof.
  intros Hq Hdt. rewrite redis_write_quiet by exact Hq.
  eexists _, _. split; [reflexivity|].
  rewrite redis_read_quiet by (cbn; auto using quiet_rest). cbn.
  rewrite lookup_insert_eq. unfold live. cbn.
  replace (now w + dt <=? now w + 300 * 1000)%Z with false by (symmetry; apply Z.leb_gt; lia).
  reflexivity.
Qed.

(** X12.  A second [/redis/write] to a key replaces the value and starts
    the 300 seconds afresh, whether the first entry had expired or not: a
    read up to 300 seconds later gives the second value, with the time
    left since the second write rounded to the nearest second, which after
    k whole seconds is 300 - k. *)
Theorem redis_second_write_renews key v1 v2 w d1 d2 :
  quiet (redis_faults w) → (0 ≤ d1)%Z → (0 ≤ d2 ≤ 300 * 1000)%Z →
  ∃ w1 w2 w3 body ttl,
    redis_write key v1 w = (inr body, w1)
    ∧ redis_write key v2 (elapse d1 w1) =
        (inr (Dict [("status", str "written"); ("key", str key); ("value", str v2);
                    ("ttl", int 300)]), w2)
    ∧ redis_read key (elapse d2 w2) = (inr (read_answer key (PStr v2) ttl), w3)
    ∧ ttl = ((300 * 1000 - d2 + 500) / 1000)%Z
    ∧ (∀ k, d2 = (1000 * k)%Z → ttl = (300 - k)%Z).
Proof.
  intros Hq Hd1 Hd2. rewrite redis_write_quiet by exact Hq.
  eexists _, _, _, _, _. split; [reflexivity|].
  rewrite redis_write_quiet by (cbn; auto using quiet_rest). split; [reflexivity|].
  rewrite redis_read_quiet by (cbn; auto using quiet_rest). cbn.
  rewrite lookup_insert_eq. unfold live. cbn.
  replace (now w + d1 + d2 <=? now w + d1 + 300 * 1000)%Z with true
    by (symmetry; apply Z.leb_le; lia).
  replace (now w + d1 + 300 * 1000 - (now w + d1 + d2))%Z with (300 * 1000 - d2)%Z by lia.
  split; [reflexivity|]. split; [reflexivity|].
  intros k ->. apply ttl_whole_seconds.
Qed.

(** X13.  A [/redis/write] to one key does not change what [/redis/read]
    answers for another. *)
Theorem redis_keys_do_not_interfere key other v' w :
  quiet (redis_faults w) → key ≠ other →
  ∃ w1 w2 w3 before after,
    redis_read key w = (inr before, w1)
    ∧ redis_write other v' w1 = (inr (Dict [("status", str "written"); ("key", str other);
                                            ("value", str v'); ("ttl", int 300)]), w2)
    ∧ redis_read key w2 = (inr after, w3)
    ∧ after = before
    ∧ redis_store (redis w3) !! key = redis_store (redis w) !! key.
Proof.
  intros Hq Hne. rewrite redis_read_quiet by exact Hq.
  eexists _, _, _, _, _. split; [reflexivity|].
  rewrite redis_write_quiet by (cbn; auto using quiet_rest). split; [reflexivity|].
  rewrite redis_read_quiet by (cbn; auto using quiet_rest). cbn.
  rewrite lookup_insert_ne by congruence.
  split; [reflexivity|]. split; [reflexivity|].
  cbn. rewrite lookup_insert_ne by congruence. reflexivity.
Qed.

(** ** The server's own report of itself *)

(** X14.  When the server's info has no [redis_version] entry,
    [/redis/connect] still answers connected, with None for the version. *)
Theorem redis_connect_without_a_version w :
  quiet (redis_faults w) →
  assoc_get "redis_version" (redis_info (redis w)) = None →
  ∃ w', redis_connect w =
          (inr (Dict [("status", str "connected"); ("ping", Val (PBool true));
                      ("redis_version", Val PNone)]), w')
        ∧ redis w' = redis w.
Proof.
  intros Hq Hv. unfold redis_connect, try_except, redis_ping, redis_info_of, info_get.
  do 2 quiet_step. rewrite Hv. eexists. split; reflexivity.
Qed.

(** ** Dropping a database *)

Ltac drop_run Hn Hp :=
  unfold pg_drop_db; rewrite Hp;
  unfold try_except, engine_raw_connection, set_isolation_level, raw_cursor,
    cursor_execute, cursor_close, raw_close;
  quiet_step; settle; quiet_step;
  change (autocommit _) with true;
  rewrite run_cursor_drop_database by exact Hn; cbn.

Lemma pg_drop_db_free db_name w :
  quiet (pg_faults w) → plain_name db_name → protected db_name = false →
  pg_catalog (pg w) !! namein db_name = Some false →
  pg_drop_db db_name w =
    (inr (dropped db_name),
     World (set_catalog (delete (namein db_name) (pg_catalog (pg w))) (pg w))
       (redis w) (now w)
       (trace w ++ [Event RawConnection None; Event (SetIsolationLevel 0) None;
                    Event CursorOpen None;
                    Event (CursorExecute (sql_drop_database db_name) []) None;
                    Event CursorClose None; Event RawClose None])
       (rest (rest (pg_faults w))) (redis_faults w)).
Proof.
  intros Hq Hn Hp Hc. drop_run Hn Hp. rewrite Hc.
  settle. unfold dropped. f_equal. f_equal.
  all: try (rewrite <- !app_assoc; reflexivity).
  all: destruct (pg w); reflexivity.
Qed.

Lemma pg_drop_db_absent db_name w :
  quiet (pg_faults w) → plain_name db_name → protected db_name = false →
  pg_catalog (pg w) !! namein db_name = None →
  pg_drop_db db_name w =
    (inr (dropped db_name),
     World (pg w) (redis w) (now w)
       (trace w ++ [Event RawConnection None; Event (SetIsolationLevel 0) None;
                    Event CursorOpen None;
                    Event (CursorExecute (sql_drop_database db_name) []) None;
                    Event CursorClose None; Event RawClose None])
       (rest (rest (pg_faults w))) (redis_faults w)).
Proof.
  intros Hq Hn Hp Hc. drop_run Hn Hp. rewrite Hc.
  settle. unfold dropped. f_equal. f_equal.
  all: try (rewrite <- !app_assoc; reflexivity).
  all: destruct (pg w); reflexivity.
Qed.

Lemma pg_drop_db_held db_name w :
  quiet (pg_faults w) → plain_name db_name → protected db_name = false →
  pg_catalog (pg w) !! namein db_name = Some true →
  pg_drop_db db_name w =
    (inl (HTTPException 500 (fault_msg cannot_drop)),
     World (set_in_use (S (pg_in_use (pg w))) (pg w)) (redis w) (now w)
       (trace w ++ [Event RawConnection None; Event (SetIsolationLevel 0) None;
                    Event CursorOpen None;
                    Event (CursorExecute (sql_drop_database db_name) []) (Some cannot_drop)])
       (rest (rest (pg_faults w))) (redis_faults w)).
Proof.
  intros Hq Hn Hp Hc. drop_run Hn Hp. rewrite Hc.
  settle. f_equal. f_equal. rewrite <- !app_assoc. reflexivity.
Qed.

(** X15.  For a name that is not protected (and not empty, with no double
    quote or NUL in it) and a PostgreSQL that lets the calls through,
    [/pg/drop-db] answers by what the catalog has under the name: nothing,
    and the answer is [dropped] with the server as it was; a database the
    server lets go, and the answer is [dropped] with that database, and no
    other, gone from the catalog; a database the server holds (a template,
    the one connected to, one with sessions), and the answer is a 500 with
    the catalog as it was.  The table is as before in all three. *)
Theorem pg_drop_db_drops_unless_held db_name w :
  plain_name db_name → protected db_name = false → quiet (pg_faults w) →
  ∃ out w',
    pg_drop_db db_name w = (out, w')
    ∧ match pg_catalog (pg w) !! namein db_name with
      | None => out = inr (dropped db_name) ∧ pg w' = pg w
      | Some false =>
          out = inr (dropped db_name)
          ∧ pg_catalog (pg w') = delete (namein db_name) (pg_catalog (pg w))
          ∧ pg_databases (pg w') = pg_databases (pg w) ∖ {[namein db_name]}
          ∧ pg_in_use (pg w') = pg_in_use (pg w)
      | Some true =>
          (∃ detail, out = inl (HTTPException 500 detail))
          ∧ pg_catalog (pg w') = pg_catalog (pg w)
      end
    ∧ pg_table (pg w') = pg_table (pg w).
Proof.
  intros Hn Hp Hq. destruct (pg_catalog (pg w) !! namein db_name) as [[|]|] eqn:Hc.
  - rewrite pg_drop_db_held by assumption. eexists _, _. split; [reflexivity|].
    cbn. split; [split; [eexists|]|]; reflexivity.
  - rewrite pg_drop_db_free by assumption. eexists _, _. split; [reflexivity|].
    cbn. split; [|reflexivity]. split; [reflexivity|]. split; [reflexivity|].
    split; [apply dom_delete_L | reflexivity].
  - rewrite pg_drop_db_absent by assumption. eexists _, _. split; [reflexivity|].
    cbn. repeat split.
Qed.

(** X16.  Creating a database that was not there and dropping it again
    gives the server back as it was, so that creating it once more answers
    [created] again. *)
Theorem create_then_drop_restores_the_catalog db_name w :
  plain_name db_name → protected db_name = false → quiet (pg_faults w) →
  namein db_name ∉ pg_databases (pg w) →
  ∃ w1 w2 w3,
    pg_create_db db_name w = (inr (created db_name), w1)
    ∧ pg_drop_db db_name w1 = (inr (dropped db_name), w2)
    ∧ pg w2 = pg w
    ∧ pg_create_db db_name w2 = (inr (created db_name), w3).
Proof.
  intros Hn Hp Hq Hnot.
  assert (Hc : pg_catalog (pg w) !! namein db_name = None) by (apply not_elem_of_dom, Hnot).
  destruct w as [[v d t wk sq ot rk n] r tm tr pf rf]. cbn in *.
  rewrite pg_create_db_absent by assumption.
  eexists _, _, _. split; [reflexivity|].
  rewrite pg_drop_db_free;
    [| cbn; auto 10 using quiet_rest | exact Hn | exact Hp | cbn; apply lookup_insert_eq ].
  split; [reflexivity|].
  unfold set_catalog. cbn. rewrite delete_insert_id by exact Hc.
  split; [reflexivity|].
  rewrite pg_create_db_absent;
    [reflexivity | cbn; auto 10 using quiet_rest | exact Hn | exact Hnot].
Qed.

(** ** Before and after the table is created *)

Lemma pg_read_without_table w :
  quiet (pg_faults w) → pg_table (pg w) = None →
  ∃ w', pg_read w = (inl (HTTPException 500 (fault_msg undefined_table)), w')
        ∧ pg_table (pg w') = None ∧ quiet (pg_faults w').
Proof.
  intros Hq Ht.
  unfold pg_read, try_except, with_connect, engine_connect, conn_execute, fetchall.
  do 2 quiet_step. rewrite Ht. cbn. eexists. split; [reflexivity|]. cbn.
  split; [exact Ht | auto using quiet_rest].
Qed.

Lemma pg_insert_without_table message w :
  quiet (pg_faults w) → pg_table (pg w) = None →
  ∃ detail w', pg_insert message w = (inl (HTTPException 500 detail), w')
               ∧ pg_table (pg w') = None ∧ quiet (pg_faults w').
Proof.
  intros Hq Ht.
  unfold pg_insert, try_except, with_connect, engine_connect, conn_execute, conn_commit,
    fetchone.
  do 2 quiet_step. unfold insert_row. cbn. rewrite Ht.
  destruct (has_char nul message); cbn; eexists _, _; (split; [reflexivity|]); cbn;
    (split; [exact Ht | auto using quiet_rest]).
Qed.

(** X17.  Without the table, [/pg/read] and [/pg/insert] answer 500 and do
    not create it; after [/pg/create-table], [/pg/read] answers ok with
    count 0 and no rows. *)
Theorem table_is_there_only_once_created message w :
  quiet (pg_faults w) → pg_table (pg w) = None →
  ∃ detail w1 w2 w3 w4,
    pg_read w = (inl (HTTPException 500 (fault_msg undefined_table)), w1)
    ∧ pg_insert message w1 = (inl (HTTPException 500 detail), w2)
    ∧ pg_table (pg w2) = None
    ∧ pg_create_table w2 = (inr table_created, w3)
    ∧ pg_read w3 = (inr (read_response []), w4).
Proof.
  intros Hq Ht.
  destruct (pg_read_without_table w Hq Ht) as (w1 & E1 & Ht1 & Hq1).
  destruct (pg_insert_without_table message w1 Hq1 Ht1) as (d & w2 & E2 & Ht2 & Hq2).
  exists d, w1, w2. eexists _, _.
  split; [exact E1|]. split; [exact E2|]. split; [exact Ht2|].
  split; [apply pg_create_table_quiet; exact Hq2|].
  rewrite (pg_read_quiet _ []); [reflexivity | cbn; auto 10 using quiet_rest |].
  cbn. destruct (pg w2) as [v d' t wk sq ot n]. cbn in *. subst. reflexivity.
Qed.

(** ** The list of tables *)

Lemma pg_tables_quiet w :
  quiet (pg_faults w) →
  pg_tables w =
    (inr (tables_answer (table_names (pg w))),
     World (pg w) (redis w) (now w) (trace w ++ [Event GetTableNames None])
           (rest (pg_faults w)) (redis_faults w)).
Proof.
  intros Hq. unfold pg_tables, try_except, get_table_names. quiet_step. reflexivity.
Qed.

(** X18.  After [/pg/create-table], [/pg/tables] lists [test_connection]
    among the other tables, which keep their order; where among them is
    the catalog's choice.  Before, the list has it only if the table was
    there, and is then the same list. *)
Theorem created_table_is_listed w :
  quiet (pg_faults w) →
  ∃ w1 w2 w3 before after l1 l2,
    pg_tables w = (inr (tables_answer before), w1)
    ∧ pg_create_table w1 = (inr table_created, w2)
    ∧ pg_tables w2 = (inr (tables_answer after), w3)
    ∧ after = l1 ++ "test_connection" :: l2
    ∧ l1 ++ l2 = pg_other_tables (pg w)
    ∧ (pg_table (pg w) = None → before = pg_other_tables (pg w))
    ∧ (is_Some (pg_table (pg w)) → before = after).
Proof.
  intros Hq. destruct w as [[v d t wk sq ot rk n] r tm tr pf rf]. cbn in *.
  rewrite pg_tables_quiet by exact Hq.
  eexists _, _, _, _, _, (take rk ot), (drop rk ot). split; [reflexivity|].
  rewrite pg_create_table_quiet by (cbn; auto using quiet_rest). split; [reflexivity|].
  rewrite pg_tables_quiet by (cbn; auto 10 using quiet_rest). cbn.
  split; [reflexivity|].
  split; [destruct t; reflexivity|].
  split; [apply take_drop|].
  split; [intros ->; reflexivity|].
  intros [rows ->]. reflexivity.
Qed.

(** ** What the combined test writes *)

(** [quiet_step] for a request that makes many calls. *)
Ltac quiet_far :=
  rewrite ?bind_eq;
  first [ rewrite pg_call_quiet by (cbn; auto 20 using quiet_rest)
        | rewrite redis_call_quiet by (cbn; auto 20 using quiet_rest) ];
  rewrite ?run_text_version, ?run_text_create_table, ?run_text_insert_returning,
    ?run_text_insert, ?run_text_read, ?run_text_count;
  cbn.

(** X19.  With both backends letting every call through, ids that came
    from the sequence and a sequence not at its end, [/test-all] reports ok
    in its three sections, with the row count one more than before; it has
    committed one row with the message [test_all at <time>] and the next
    id, and left [testall_key] in the cache, which [/redis/read] then
    returns with ttl 60. *)
Theorem test_all_writes_a_row_and_a_key w :
  quiet (pg_faults w) → quiet (redis_faults w) → serial_ok (pg w) →
  (is_Some (pg_table (pg w)) → (pg_seq (pg w) ≤ int4_max)%Z) →
  has_char nul (str_float (now w)) = false →
  let rows := default [] (pg_table (pg w)) in
  let next := match pg_table (pg w) with Some _ => pg_seq (pg w) | None => 1%Z end in
  ∃ w' w'',
    test_all w =
      (inr (Dict [("pg_connect",
                   Dict [("status", str "ok"); ("version", str (pg_version (pg w)))]);
                  ("pg_readwrite",
                   Dict [("status", str "ok");
                         ("row_count", int (Z.of_nat (S (length rows))))]);
                  ("redis",
                   Dict [("status", str "ok"); ("ping", Val (PBool true));
                         ("read_back", str "testall_value")])]), w')
    ∧ pg_table (pg w') =
        Some (rows ++ [Row next ("test_all at " +:+ str_float (now w)) (now w)])
    ∧ redis_store (redis w') =
        <["testall_key" := ("testall_value", Some (now w + 60 * 1000)%Z)]>
          (redis_store (redis w))
    ∧ redis_read "testall_key" w' =
        (inr (Dict [("status", str "ok"); ("key", str "testall_key");
                    ("value", str "testall_value"); ("ttl", int 60)]), w'').
Proof.
  intros Hq Hr Hok Hmax Hnul rows next.
  assert (Hm : has_char nul ("test_all at " +:+ str_float (now w)) = false) by exact Hnul.
  destruct w as [[v dbs tbl wk sq ot rk n] r t tr pf rf]. cbn in *.
  unfold test_all, test_all_pg_connect, test_all_pg_readwrite, test_all_redis, try_except,
    with_connect, engine_connect, conn_execute, conn_commit, redis_ping, redis_set, redis_get.
  do 2 quiet_far. settle. do 2 quiet_far. settle. quiet_far.
  assert (Hle : (t <=? t + 60 * 1000)%Z = true) by (apply Z.leb_le; lia).
  assert (Httl : ((t + 60 * 1000 - t + 500) / 1000)%Z = 60%Z).
  { replace (t + 60 * 1000 - t + 500)%Z with 60500%Z by lia. reflexivity. }
  destruct tbl as [old|]; subst rows next; cbn.
  - erewrite (insert_row_fresh _ _ _ old);
      [| exact Hm | reflexivity | exact (Hmax (mk_is_Some _ _ eq_refl))
       | exact (Hok old eq_refl) ].
    cbn. do 2 quiet_far. settle. do 3 quiet_far.
    rewrite lookup_insert_eq. unfold live. cbn [snd fst]. rewrite Hle. settle.
    rewrite length_app, Nat.add_1_r.
    eexists _, _. split; [reflexivity|]. cbn. split; [reflexivity|]. split; [reflexivity|].
    rewrite redis_read_quiet by (cbn; auto 10 using quiet_rest). cbn.
    rewrite lookup_insert_eq. unfold live. cbn [snd fst]. rewrite Hle, Httl. reflexivity.
  - erewrite (insert_row_fresh _ _ _ []);
      [| exact Hm | reflexivity | discriminate | constructor ].
    cbn. do 2 quiet_far. settle. do 3 quiet_far.
    rewrite lookup_insert_eq. unfold live. cbn [snd fst]. rewrite Hle. settle.
    eexists _, _. split; [reflexivity|]. cbn. split; [reflexivity|]. split; [reflexivity|].
    rewrite redis_read_quiet by (cbn; auto 10 using quiet_rest). cbn.
    rewrite lookup_insert_eq. unfold live. cbn [snd fst]. rewrite Hle, Httl. reflexivity.
Qed.

(** X9.  A fault during [/pg/connect] that is not an OperationalError
    leaves the handler uncaught; the connection, if one was taken, is given
    back all the same. *)
Theorem pg_connect_catches_operational_errors_only w resp w' f :
  serve GET_pg_connect w = (resp, w') →
  f ∈ faults_in (calls_since w w') →
  fault_cls f ≠ OperationalError →
  resp = Unhandled (Backend f) ∧ pg_in_use (pg w') = pg_in_use (pg w).
Proof.
  unfold serve, app, pg_connect, try_except, with_connect, engine_connect, conn_execute.
  call_cases.
  { destruct f0 as [[] msg]; cbn; intros [= <- <-]; close_trace; intros Hin Hc;
      apply list_elem_of_singleton in Hin as ->; first [contradiction | split; reflexivity]. }
  call_cases.
  { destruct f0 as [[] msg]; cbn; intros [= <- <-]; close_trace; intros Hin Hc;
      apply list_elem_of_singleton in Hin as ->; first [contradiction | split; reflexivity]. }
  rewrite run_text_version. settle. intros [= <- <-]. close_trace. intros Hin. inversion Hin.
Qed.

End Service.

(** * Concrete runs *)

Example pg_connect_lets_a_pool_timeout_through :
  (serve clip63 show_datetime show_time reads_no_more GET_pg_connect w_pool_exhausted).1 =
    Unhandled (Backend pool_exhausted).
Proof. vm_compute. reflexivity. Qed.

Example redis_connect_prefixes_the_message :
  (serve clip63 show_datetime show_time reads_no_more GET_redis_connect
     (World pg_fresh redis_fresh 1700000000000 [] healthy
            (down (Fault RedisError "Connection refused")))).1 =
    server_error "Redis connection failed: Connection refused".
Proof. vm_compute. reflexivity. Qed.

Example test_all_with_postgres_down :
  (serve clip63 show_datetime show_time reads_no_more GET_test_all w_pg_down).1 =
    Response 200
      (Dict [("pg_connect", error_report "connection refused");
             ("pg_readwrite", error_report "connection refused");
             ("redis", Dict [("status", str "ok"); ("ping", Val (PBool true));
                             ("read_back", str "testall_value")])]).
Proof. vm_compute. reflexivity. Qed.

(** PostgreSQL fails once: the first section reports the error and the
    second, on the same server, goes through. *)
Example test_all_after_a_hiccup :
  (serve clip63 show_datetime show_time reads_no_more GET_test_all w_pg_hiccup).1 =
    Response 200
      (Dict [("pg_connect", error_report "connection refused");
             ("pg_readwrite", Dict [("status", str "ok"); ("row_count", int 1)]);
             ("redis", Dict [("status", str "ok"); ("ping", Val (PBool true));
                             ("read_back", str "testall_value")])]).
Proof. vm_compute. reflexivity. Qed.

(** At the end of the sequence the insert of the second section fails, and
    so does [/pg/insert]. *)
Example test_all_at_the_end_of_the_sequence :
  (serve clip63 show_datetime show_time reads_no_more GET_test_all w_exhausted).1 =
    Response 200
      (Dict [("pg_connect", Dict [("status", str "ok"); ("version", str "PostgreSQL 16.1")]);
             ("pg_readwrite", error_report "nextval: reached maximum value of sequence");
             ("redis", Dict [("status", str "ok"); ("ping", Val (PBool true));
                             ("read_back", str "testall_value")])]).
Proof. vm_compute. reflexivity. Qed.

Example insert_at_the_end_of_the_sequence :
  (serve clip63 show_datetime show_time reads_no_more (POST_pg_insert None) w_exhausted).1 =
    server_error "nextval: reached maximum value of sequence".
Proof. vm_compute. reflexivity. Qed.

Example read_twelve :
  (pg_read show_datetime w_twelve).1 =
    inr (read_response show_datetime
           ((λ i, Row i ("m" +:+ pretty i) (1699990000000 + i)) <$>
              [12; 11; 10; 9; 8; 7; 6; 5; 4; 3]%Z)).
Proof. vm_compute. reflexivity. Qed.

(** C2, as the specification has it, fails: [/pg/connect] puts a prefix
    before the fault's message. *)
Lemma detail_is_not_always_the_message :
  ¬ every_fault_is_a_500_with_its_message clip63 show_datetime show_time reads_no_more.
Proof.
  intros H.
  pose (out := serve clip63 show_datetime show_time reads_no_more GET_pg_connect w_pg_hiccup).
  assert (E : serve clip63 show_datetime show_time reads_no_more GET_pg_connect w_pg_hiccup =
              (out.1, out.2))
    by (subst out; apply surjective_pairing).
  specialize (H _ _ _ _ connection_refused E).
  assert (Hin : connection_refused ∈ faults_in (calls_since w_pg_hiccup out.2))
    by (vm_compute; constructor).
  specialize (H Hin). vm_compute in H. discriminate H.
Qed.

(** C4, as the specification has it, fails: a name with a double quote in
    it is not created. *)
Lemma create_db_rejects_a_quoted_name :
  ¬ create_db_twice_for_every_name clip63 reads_no_more.
Proof.
  intros H.
  destruct (H quoted_name w_fresh) as (w1 & w2 & H1 & _).
  - apply quiet_healthy.
  - vm_compute. intros Hin. discriminate Hin.
  - vm_compute in H1. discriminate H1.
Qed.

Example create_db_with_a_quoted_name :
  (serve clip63 show_datetime show_time reads_no_more
     (POST_pg_create_db (Some quoted_name)) w_fresh).1 =
    server_error "syntax error".
Proof. vm_compute. reflexivity. Qed.

Example create_db_with_an_empty_name :
  (serve clip63 show_datetime show_time reads_no_more (POST_pg_create_db (Some "")) w_fresh).1 =
    server_error "syntax error".
Proof. vm_compute. reflexivity. Qed.

Example create_db_with_a_nul_in_the_name :
  (serve clip63 show_datetime show_time reads_no_more
     (POST_pg_create_db (Some (String "a" (String nul "b")))) w_fresh).1 =
    server_error "A string literal cannot contain NUL (0x00) characters.".
Proof. vm_compute. reflexivity. Qed.

(** A name of more than 63 bytes is looked up and created under its
    clipped form, and is found again the second time. *)
Example create_db_with_a_long_name :
  let long := "n0123456789abcdef0123456789abcdef0123456789abcdef0123456789abcdef0123456789" in
  (requests clip63 show_datetime show_time reads_no_more 2
     (POST_pg_create_db (Some long)) w_fresh).1 =
    [Response 200 (created long); Response 200 (already_exists long)].
Proof. vm_compute. reflexivity. Qed.

(** C5, as the specification has it, fails: the id of a row is an integer
    in the response, not text. *)
Lemma read_row_id_is_not_text : ¬ read_rows_all_text show_datetime.
Proof.
  intros H.
  destruct (H w_twelve twelve_rows) as (shown & items & w' & E & _ & _ & _ & Htext).
  - apply quiet_healthy.
  - reflexivity.
  - vm_compute in E. injection E as _ <- _.
    destruct (Htext (Dict [("id", int 12); ("message", str "m12");
                           ("created_at", str "t=1699990000012")]) "id") as (s & Hs).
    + constructor.
    + constructor.
    + vm_compute in Hs. discriminate Hs.
Qed.

(** C9, as the specification has it, fails: a quarter of a second before
    the expiry the value is still there and the ttl is 0. *)
Lemma ttl_can_be_zero_before_expiry : ¬ ttl_is_positive_before_expiry.
Proof.
  intros H.
  destruct (H "k1" "v1" w_fresh 299750%Z quiet_healthy)
    as (body & w1 & ttl & w2 & E1 & E2 & Hpos); [lia|].
  vm_compute in E1. injection E1 as _ <-.
  vm_compute in E2. injection E2 as Httl _. lia.
Qed.

Example read_in_the_last_half_second :
  (serve clip63 show_datetime show_time reads_no_more (GET_redis_read (Some "k1"))
     (elapse 299750
        (serve clip63 show_datetime show_time reads_no_more
           (POST_redis_write (Some "k1") (Some "v1")) w_fresh).2)).1 =
    Response 200 (read_answer "k1" (PStr "v1") 0).
Proof. vm_compute. reflexivity. Qed.


Example drop_with_a_closing_quote :
  let out := serve clip63 show_datetime show_time reads_no_more
               (DELETE_pg_drop_db (Some closing_name)) w_fresh in
  out.1 = Response 200 (dropped closing_name)
  ∧ drop_target (drop_if_exists closing_name) = Some "openLLM"
  ∧ pg_catalog (pg out.2) !! "openLLM" = None.
Proof. vm_compute. repeat split. Qed.

(** With PostgreSQL down the handler gets no connection and sends no
    statement. *)
Example drop_with_postgres_down :
  let out := serve clip63 show_datetime show_time reads_no_more
               (DELETE_pg_drop_db (Some "Postgres")) w_pg_down in
  out.1 = server_error "connection refused"
  ∧ calls_since w_pg_down out.2 = [Event RawConnection (Some connection_refused)].
Proof. vm_compute. repeat split. Qed.

(** A template database is not dropped. *)
Example drop_of_a_template :
  let out := serve clip63 show_datetime show_time reads_no_more
               (DELETE_pg_drop_db (Some "template1")) w_fresh in
  out.1 = server_error "cannot drop database" ∧ pg_catalog (pg out.2) = catalog_fresh.
Proof. vm_compute. repeat split. Qed.

(** A table of another service that the catalog lists after
    [test_connection]. *)
Example tables_in_the_order_of_the_catalog :
  (requests clip63 show_datetime show_time reads_no_more 1 GET_pg_tables
     (serve clip63 show_datetime show_time reads_no_more POST_pg_create_table
        w_other_table).2).1 =
    [Response 200 (tables_answer ["test_connection"; "other_later"])].
Proof. vm_compute. reflexivity. Qed.


(** * The theorems at concrete inputs *)

Lemma drop_protected_always_refused_witness :
  ("postgres" = "postgres" ∨ "postgres" = "openLLM")
  ∧ requests clip63 show_datetime show_time reads_no_more 3
      (DELETE_pg_drop_db (Some "postgres")) w_fresh =
      (replicate 3 (bad_request "Cannot drop protected database"), w_fresh).
Proof.
  split; [left; reflexivity|].
  apply (drop_protected_always_refused clip63 show_datetime show_time reads_no_more
           "postgres" 3 w_fresh).
  left; reflexivity.
Defined.



Lemma redis_write_then_read_witness :
  quiet (redis_faults w_fresh)
  ∧ ∃ w1 w2,
      redis_write "k1" "v1" w_fresh =
        (inr (Dict [("status", str "written"); ("key", str "k1"); ("value", str "v1");
                    ("ttl", int 300)]), w1)
      ∧ redis_read "k1" (elapse 120000 w1) =
          (inr (Dict [("status", str "ok"); ("key", str "k1"); ("value", str "v1");
                      ("ttl", int 180)]), w2).
Proof.
  split; [apply quiet_healthy|].
  destruct (redis_write_then_read "k1" "v1" w_fresh quiet_healthy) as (w1 & E1 & _ & Hread).
  destruct (Hread 120000%Z) as (ttl & w2 & E2 & -> & _); [lia|].
  exists w1, w2. split; [exact E1 | exact E2].
Defined.

Lemma pg_create_table_idempotent_witness :
  quiet (pg_faults w_fresh)
  ∧ ∃ w1 w2,
      pg_create_table w_fresh = (inr table_created, w1)
      ∧ pg_create_table w1 = (inr table_created, w2)
      ∧ pg w2 = pg w1 ∧ pg_table (pg w1) = Some [].
Proof.
  split; [apply quiet_healthy|].
  destruct (pg_create_table_idempotent w_fresh quiet_healthy)
    as (w1 & w2 & E1 & E2 & Hpg & _ & Ht & _).
  exists w1, w2. auto.
Defined.

Lemma serial_ok_twelve : serial_ok (pg w_twelve).
Proof. intros rows [= <-]. repeat constructor. Qed.

Lemma insert_then_read_witness :
  let w1 := (pg_insert show_datetime "hello" w_twelve).2 in
  let w2 := (pg_read show_datetime w1).2 in
  serial_ok (pg w_twelve)
  ∧ ∃ r2 id t older,
      pg_insert show_datetime "hello" w_twelve =
        (inr (inserted show_datetime (Row 13 "hello" 1700000000000)), w1)
      ∧ pg_read show_datetime w1 = (inr r2, w2)
      ∧ r2 = read_response show_datetime (Row id "hello" t :: older)
      ∧ Forall (λ r, (row_id r < id)%Z) older.
Proof.
  intros w1 w2. split; [exact serial_ok_twelve|].
  assert (E1 : pg_insert show_datetime "hello" w_twelve =
               (inr (inserted show_datetime (Row 13 "hello" 1700000000000)), w1))
    by (vm_compute; reflexivity).
  assert (E2 : ∃ r2, pg_read show_datetime w1 = (inr r2, w2))
    by (eexists; vm_compute; reflexivity).
  destruct E2 as (r2 & E2).
  destruct (insert_then_read show_datetime "hello" w_twelve _ w1 r2 w2 serial_ok_twelve E1 E2)
    as (id & t & older & _ & Hr2 & _ & _ & Hold).
  exists r2, id, t, older. auto.
Defined.

Lemma plain_test_newdb : plain_name "test_newdb".
Proof. split; [discriminate | split; reflexivity]. Qed.

Lemma pg_create_db_plain_name_witness :
  plain_name "test_newdb" ∧ quiet (pg_faults w_fresh)
  ∧ (clip63 "test_newdb" ∉ pg_databases (pg w_fresh))
  ∧ ∃ w1 w2,
      pg_create_db clip63 reads_no_more "test_newdb" w_fresh = (inr (created "test_newdb"), w1)
      ∧ pg_create_db clip63 reads_no_more "test_newdb" w1 =
          (inr (already_exists "test_newdb"), w2)
      ∧ pg w2 = pg w1.
Proof.
  assert (Hn : clip63 "test_newdb" ∉ pg_databases (pg w_fresh))
    by (apply not_elem_of_dom; vm_compute; reflexivity).
  split; [exact plain_test_newdb|]. split; [apply quiet_healthy|]. split; [exact Hn|].
  destruct (pg_create_db_plain_name clip63 reads_no_more "test_newdb" w_fresh plain_test_newdb
              quiet_healthy) as [_ H].
  destruct (H Hn) as (w1 & w2 & E1 & _ & _ & _ & E2 & _ & Hpg).
  exists w1, w2. auto.
Defined.

Lemma test_all_sections_isolated_witness :
  pg_faults w_pg_down = down connection_refused ∧ quiet (redis_faults w_pg_down)
  ∧ ∃ w3,
      test_all show_time w_pg_down =
        (inr (Dict [("pg_connect", error_report "connection refused");
                    ("pg_readwrite", error_report "connection refused");
                    ("redis", Dict [("status", str "ok"); ("ping", Val (PBool true));
                                    ("read_back", str "testall_value")])]), w3).
Proof.
  split; [reflexivity|]. split; [apply quiet_healthy|].
  destruct (test_all_sections_isolated show_time w_pg_down)
    as (r1 & r2 & r3 & w1 & w2 & w3 & E & _ & _ & _ & _ & _ & _ & Hdown & _ & _ & _ & Hup).
  destruct (Hdown connection_refused eq_refl) as [-> ->].
  destruct (Hup quiet_healthy) as [-> _].
  exists w3. exact E.
Defined.

Lemma faults_surface_as_500_witness :
  let out := serve clip63 show_datetime show_time reads_no_more (POST_pg_insert None)
               w_pg_hiccup in
  connection_refused ∈ faults_in (calls_since w_pg_hiccup out.2)
  ∧ out.1 = server_error "connection refused".
Proof.
  intros out.
  assert (Hin : connection_refused ∈ faults_in (calls_since w_pg_hiccup out.2))
    by (vm_compute; constructor).
  split; [exact Hin|].
  destruct (faults_surface_as_500 clip63 show_datetime show_time reads_no_more
              (POST_pg_insert None) w_pg_hiccup out.1 out.2) as [H _].
  - subst out. apply surjective_pairing.
  - exact (H connection_refused Hin).
Defined.

Lemma raw_connection_left_open_on_fault_witness :
  let out := pg_create_db clip63 reads_no_more "" w_fresh in
  out.1 = inl (HTTPException 500 "syntax error")
  ∧ Event RawConnection None ∈ calls_since w_fresh out.2
  ∧ (RawClose ∉ issued (calls_since w_fresh out.2))
  ∧ pg_in_use (pg out.2) = 1%nat.
Proof.
  intros out.
  assert (E : pg_create_db clip63 reads_no_more "" w_fresh =
              (inl (HTTPException 500 "syntax error"), out.2))
    by (vm_compute; reflexivity).
  assert (Hin : Event RawConnection None ∈ calls_since w_fresh out.2)
    by (vm_compute; constructor).
  split; [subst out; rewrite E at 1; reflexivity|]. split; [exact Hin|].
  destruct (raw_connection_left_open_on_fault clip63 reads_no_more "" w_fresh _ out.2
              (or_introl E) Hin) as (H1 & _ & H3).
  split; [exact H1 | exact H3].
Defined.

Lemma pg_read_latest_rows_witness :
  quiet (pg_faults w_twelve) ∧ pg_table (pg w_twelve) = Some twelve_rows
  ∧ ∃ shown w',
      pg_read show_datetime w_twelve = (inr (read_response show_datetime shown), w')
      ∧ length shown = 10%nat ∧ StronglySorted by_id_desc shown.
Proof.
  split; [apply quiet_healthy|]. split; [reflexivity|].
  destruct (pg_read_latest_rows show_datetime w_twelve twelve_rows quiet_healthy eq_refl)
    as (shown & w' & E & _ & (Hlen & Hs & _) & _).
  exists shown, w'. auto.
Defined.

(** * The further theorems at concrete inputs *)

Lemma reading_requests_change_nothing_witness :
  let out := serve clip63 show_datetime show_time reads_no_more GET_pg_read w_twelve in
  reads_only GET_pg_read = true
  ∧ pg_data (pg out.2) = pg_data (pg w_twelve) ∧ redis out.2 = redis w_twelve.
Proof.
  intros out. split; [reflexivity|].
  destruct (reading_requests_change_nothing clip63 show_datetime show_time reads_no_more
              GET_pg_read w_twelve out.1 out.2 eq_refl) as (H1 & H2 & _).
  - subst out. apply surjective_pairing.
  - split; [exact H1 | exact H2].
Defined.

Lemma scoped_requests_give_the_connection_back_witness :
  takes_raw_connection (POST_pg_insert None) = false
  ∧ pg_in_use (pg (serve clip63 show_datetime show_time reads_no_more (POST_pg_insert None)
                     w_commit_fails).2)
    = pg_in_use (pg w_commit_fails).
Proof.
  split; [reflexivity|].
  apply (scoped_requests_give_the_connection_back clip63 show_datetime show_time reads_no_more
           (POST_pg_insert None) w_commit_fails).
  reflexivity.
Defined.

Lemma raw_connection_closed_on_return_witness :
  let out := pg_create_db clip63 reads_no_more "test_newdb" w_fresh in
  out.1 = inr (created "test_newdb")
  ∧ RawClose ∈ issued (calls_since w_fresh out.2)
  ∧ CursorClose ∈ issued (calls_since w_fresh out.2)
  ∧ pg_in_use (pg out.2) = pg_in_use (pg w_fresh).
Proof.
  intros out.
  assert (E : pg_create_db clip63 reads_no_more "test_newdb" w_fresh =
              (inr (created "test_newdb"), out.2))
    by (vm_compute; reflexivity).
  split; [subst out; rewrite E at 1; reflexivity|].
  exact (raw_connection_closed_on_return clip63 reads_no_more "test_newdb" w_fresh _ out.2
           (or_introl E)).
Defined.

Lemma serve_keeps_serial_ok_witness :
  serial_ok (pg w_twelve)
  ∧ serial_ok (pg (serve clip63 show_datetime show_time reads_no_more
                     (POST_pg_insert (Some "x")) w_twelve).2).
Proof.
  split; [exact serial_ok_twelve|].
  apply (serve_keeps_serial_ok clip63 show_datetime show_time reads_no_more).
  exact serial_ok_twelve.
Defined.

Lemma insert_answers_by_its_commit_witness :
  let out := pg_insert show_datetime "x" w_commit_fails in
  out.1 = inl (HTTPException 500 "connection refused")
  ∧ Event ConnCommit (Some connection_refused) ∈ calls_since w_commit_fails out.2
  ∧ (Event ConnCommit None ∉ calls_since w_commit_fails out.2).
Proof.
  intros out.
  assert (E : pg_insert show_datetime "x" w_commit_fails =
              (inl (HTTPException 500 "connection refused"), out.2))
    by (vm_compute; reflexivity).
  split; [subst out; rewrite E at 1; reflexivity|].
  split; [vm_compute; do 2 constructor; constructor|].
  destruct (insert_answers_by_its_commit show_datetime "x" w_commit_fails _ out.2 E)
    as (H & _).
  intros Hin. apply H in Hin as (body & Hb). discriminate Hb.
Defined.

Lemma create_table_answers_by_its_commit_witness :
  let out := pg_create_table w_commit_fails_no_table in
  out.1 = inl (HTTPException 500 "connection refused")
  ∧ (Event ConnCommit None ∉ calls_since w_commit_fails_no_table out.2).
Proof.
  intros out.
  assert (E : pg_create_table w_commit_fails_no_table =
              (inl (HTTPException 500 "connection refused"), out.2))
    by (vm_compute; reflexivity).
  split; [subst out; rewrite E at 1; reflexivity|].
  destruct (create_table_answers_by_its_commit w_commit_fails_no_table _ out.2 E) as (H & _).
  intros Hin. apply H in Hin as (body & Hb). discriminate Hb.
Defined.

Lemma answers_are_200_400_500_or_uncaught_witness :
  let out := serve clip63 show_datetime show_time reads_no_more GET_pg_connect
               w_pool_exhausted in
  out.1 = Unhandled (Backend pool_exhausted)
  ∧ faults_in (calls_since w_pool_exhausted out.2) = [pool_exhausted].
Proof.
  intros out.
  assert (E : serve clip63 show_datetime show_time reads_no_more GET_pg_connect
                w_pool_exhausted =
              (Unhandled (Backend pool_exhausted), out.2))
    by (vm_compute; reflexivity).
  split; [subst out; rewrite E at 1; reflexivity|].
  destruct (answers_are_200_400_500_or_uncaught clip63 show_datetime show_time reads_no_more
              GET_pg_connect w_pool_exhausted _ out.2 E) as (_ & f & Hf & _ & Hin).
  injection Hf as <-. exact Hin.
Defined.

Lemma a_200_means_no_call_failed_witness :
  let out := serve clip63 show_datetime show_time reads_no_more POST_pg_create_table
               w_fresh in
  out.1 = Response 200 table_created
  ∧ faults_in (calls_since w_fresh out.2) = [].
Proof.
  intros out.
  assert (E : serve clip63 show_datetime show_time reads_no_more POST_pg_create_table w_fresh =
              (Response 200 table_created, out.2))
    by (vm_compute; reflexivity).
  split; [subst out; rewrite E at 1; reflexivity|].
  apply (a_200_means_no_call_failed clip63 show_datetime show_time reads_no_more
           POST_pg_create_table w_fresh table_created out.2); [discriminate | exact E].
Defined.

Lemma pg_connect_catches_operational_errors_only_witness :
  let out := serve clip63 show_datetime show_time reads_no_more GET_pg_connect
               w_pool_exhausted in
  pool_exhausted ∈ faults_in (calls_since w_pool_exhausted out.2)
  ∧ fault_cls pool_exhausted ≠ OperationalError
  ∧ out.1 = Unhandled (Backend pool_exhausted)
  ∧ pg_in_use (pg out.2) = pg_in_use (pg w_pool_exhausted).
Proof.
  intros out.
  assert (Hin : pool_exhausted ∈ faults_in (calls_since w_pool_exhausted out.2))
    by (vm_compute; constructor).
  assert (Hc : fault_cls pool_exhausted ≠ OperationalError) by discriminate.
  split; [exact Hin|]. split; [exact Hc|].
  apply (pg_connect_catches_operational_errors_only clip63 show_datetime show_time
           reads_no_more w_pool_exhausted out.1 out.2 pool_exhausted);
    [subst out; apply surjective_pairing | exact Hin | exact Hc].
Defined.

Lemma redis_read_of_a_key_not_there_witness :
  quiet (redis_faults w_fresh) ∧ redis_store (redis w_fresh) !! "nokey" = None
  ∧ ∃ w', redis_read "nokey" w_fresh = (inr (key_missing "nokey"), w').
Proof.
  split; [apply quiet_healthy|]. split; [reflexivity|].
  destruct (redis_read_of_a_key_not_there "nokey" w_fresh quiet_healthy eq_refl)
    as (w' & E & _).
  exists w'. exact E.
Defined.

Lemma redis_entry_expires_witness :
  quiet (redis_faults w_fresh)
  ∧ ∃ w1 w2,
      redis_write "k1" "v1" w_fresh =
        (inr (Dict [("status", str "written"); ("key", str "k1"); ("value", str "v1");
                    ("ttl", int 300)]), w1)
      ∧ redis_read "k1" (elapse 300100 w1) = (inr (key_missing "k1"), w2).
Proof.
  split; [apply quiet_healthy|].
  apply (redis_entry_expires "k1" "v1" w_fresh 300100 quiet_healthy). lia.
Defined.

Lemma redis_second_write_renews_witness :
  quiet (redis_faults w_fresh)
  ∧ ∃ w1 w2 w3 body,
      redis_write "k1" "v1" w_fresh = (inr body, w1)
      ∧ redis_write "k1" "v2" (elapse 400000 w1) =
          (inr (Dict [("status", str "written"); ("key", str "k1"); ("value", str "v2");
                      ("ttl", int 300)]), w2)
      ∧ redis_read "k1" (elapse 100000 w2) = (inr (read_answer "k1" (PStr "v2") 200), w3).
Proof.
  split; [apply quiet_healthy|].
  destruct (redis_second_write_renews "k1" "v1" "v2" w_fresh 400000 100000 quiet_healthy)
    as (w1 & w2 & w3 & body & ttl & E1 & E2 & E3 & _ & Hk); [lia | lia |].
  rewrite (Hk 100%Z eq_refl) in E3.
  exists w1, w2, w3, body. split; [exact E1|]. split; [exact E2 | exact E3].
Defined.

Lemma redis_keys_do_not_interfere_witness :
  quiet (redis_faults w_fresh) ∧ "k1" ≠ "k2"
  ∧ ∃ w1 w2 w3 before after,
      redis_read "k1" w_fresh = (inr before, w1)
      ∧ redis_write "k2" "v2" w1 =
          (inr (Dict [("status", str "written"); ("key", str "k2"); ("value", str "v2");
                      ("ttl", int 300)]), w2)
      ∧ redis_read "k1" w2 = (inr after, w3)
      ∧ after = before.
Proof.
  assert (Hne : "k1" ≠ "k2") by discriminate.
  split; [apply quiet_healthy|]. split; [exact Hne|].
  destruct (redis_keys_do_not_interfere "k1" "k2" "v2" w_fresh quiet_healthy Hne)
    as (w1 & w2 & w3 & b & a & E1 & E2 & E3 & Hab & _).
  exists w1, w2, w3, b, a. auto.
Defined.

Lemma redis_connect_without_a_version_witness :
  quiet (redis_faults w_no_version)
  ∧ assoc_get "redis_version" (redis_info (redis w_no_version)) = None
  ∧ ∃ w', redis_connect w_no_version =
            (inr (Dict [("status", str "connected"); ("ping", Val (PBool true));
                        ("redis_version", Val PNone)]), w').
Proof.
  split; [apply quiet_healthy|]. split; [reflexivity|].
  destruct (redis_connect_without_a_version w_no_version quiet_healthy eq_refl) as (w' & E & _).
  exists w'. exact E.
Defined.

Lemma plain_template1 : plain_name "template1".
Proof. split; [discriminate | split; reflexivity]. Qed.

Lemma pg_drop_db_drops_unless_held_witness :
  plain_name "template1" ∧ protected "template1" = false ∧ quiet (pg_faults w_fresh)
  ∧ pg_catalog (pg w_fresh) !! clip63 "template1" = Some true
  ∧ ∃ detail w',
      pg_drop_db clip63 reads_no_more "template1" w_fresh = (inl (HTTPException 500 detail), w')
      ∧ pg_catalog (pg w') = pg_catalog (pg w_fresh).
Proof.
  assert (Hl : pg_catalog (pg w_fresh) !! clip63 "template1" = Some true)
    by (vm_compute; reflexivity).
  split; [exact plain_template1|]. split; [reflexivity|]. split; [apply quiet_healthy|].
  split; [exact Hl|].
  destruct (pg_drop_db_drops_unless_held clip63 reads_no_more "template1" w_fresh
              plain_template1 eq_refl quiet_healthy) as (out & w' & E & Hm & _).
  rewrite Hl in Hm. destruct Hm as ((detail & ->) & Hc).
  exists detail, w'. split; [exact E | exact Hc].
Defined.

Lemma create_then_drop_restores_the_catalog_witness :
  plain_name "test_newdb" ∧ protected "test_newdb" = false ∧ quiet (pg_faults w_fresh)
  ∧ (clip63 "test_newdb" ∉ pg_databases (pg w_fresh))
  ∧ ∃ w1 w2 w3,
      pg_create_db clip63 reads_no_more "test_newdb" w_fresh = (inr (created "test_newdb"), w1)
      ∧ pg_drop_db clip63 reads_no_more "test_newdb" w1 = (inr (dropped "test_newdb"), w2)
      ∧ pg w2 = pg w_fresh
      ∧ pg_create_db clip63 reads_no_more "test_newdb" w2 = (inr (created "test_newdb"), w3).
Proof.
  assert (Hn : clip63 "test_newdb" ∉ pg_databases (pg w_fresh))
    by (apply not_elem_of_dom; vm_compute; reflexivity).
  split; [exact plain_test_newdb|]. split; [reflexivity|]. split; [apply quiet_healthy|].
  split; [exact Hn|].
  exact (create_then_drop_restores_the_catalog clip63 reads_no_more "test_newdb" w_fresh
           plain_test_newdb eq_refl quiet_healthy Hn).
Defined.

Lemma table_is_there_only_once_created_witness :
  quiet (pg_faults w_fresh) ∧ pg_table (pg w_fresh) = None
  ∧ ∃ detail w1 w2 w3 w4,
      pg_read show_datetime w_fresh =
        (inl (HTTPException 500 (fault_msg undefined_table)), w1)
      ∧ pg_insert show_datetime "hello" w1 = (inl (HTTPException 500 detail), w2)
      ∧ pg_table (pg w2) = None
      ∧ pg_create_table w2 = (inr table_created, w3)
      ∧ pg_read show_datetime w3 = (inr (read_response show_datetime []), w4).
Proof.
  split; [apply quiet_healthy|]. split; [reflexivity|].
  exact (table_is_there_only_once_created show_datetime "hello" w_fresh quiet_healthy eq_refl).
Defined.

Lemma created_table_is_listed_witness :
  quiet (pg_faults w_other_table)
  ∧ ∃ w1 w2 w3 after,
      pg_tables w_other_table = (inr (tables_answer ["other_later"]), w1)
      ∧ pg_create_table w1 = (inr table_created, w2)
      ∧ pg_tables w2 = (inr (tables_answer after), w3)
      ∧ "test_connection" ∈ after ∧ length after = 2%nat.
Proof.
  split; [apply quiet_healthy|].
  destruct (created_table_is_listed w_other_table quiet_healthy)
    as (w1 & w2 & w3 & before & after & l1 & l2 & E1 & E2 & E3 & -> & Hl & Hnone & _).
  rewrite (Hnone eq_refl) in E1.
  exists w1, w2, w3, (l1 ++ "test_connection" :: l2).
  split; [exact E1|]. split; [exact E2|]. split; [exact E3|].
  split; [apply elem_of_app; right; constructor|].
  rewrite length_app. cbn [length]. rewrite Nat.add_succ_r, <- length_app, Hl. reflexivity.
Defined.

Lemma test_all_writes_a_row_and_a_key_witness :
  quiet (pg_faults w_twelve) ∧ quiet (redis_faults w_twelve) ∧ serial_ok (pg w_twelve)
  ∧ (pg_seq (pg w_twelve) ≤ int4_max)%Z
  ∧ has_char nul (show_time (now w_twelve)) = false
  ∧ ∃ w' w'' body,
      test_all show_time w_twelve = (inr body, w')
      ∧ pg_table (pg w') =
          Some (twelve_rows ++ [Row 13 "test_all at 1700000000.0" 1700000000000])
      ∧ redis_read "testall_key" w' =
          (inr (Dict [("status", str "ok"); ("key", str "testall_key");
                      ("value", str "testall_value"); ("ttl", int 60)]), w'').
Proof.
  assert (Hnul : has_char nul (show_time (now w_twelve)) = false) by (vm_compute; reflexivity).
  assert (Hmax : (pg_seq (pg w_twelve) ≤ int4_max)%Z) by discriminate.
  split; [apply quiet_healthy|]. split; [apply quiet_healthy|].
  split; [exact serial_ok_twelve|]. split; [exact Hmax|]. split; [exact Hnul|].
  destruct (test_all_writes_a_row_and_a_key show_time w_twelve quiet_healthy quiet_healthy
              serial_ok_twelve (λ _, Hmax) Hnul) as (w' & w'' & E & Ht & _ & Er).
  exists w', w''. eexists. split; [exact E|]. split; [exact Ht | exact Er].
Defined.
